(** * koraa/hangman: the game model, the scoring function, the session
    token and the high score table of [server.js], embedded in Rocq.

    Conventions of the embedding.
    - A JavaScript number is an exact rational extended with [NaN] and the
      two infinities.  The special values behave as in IEEE 754
      ([0/0 = NaN], [x/0 = Infinity], [Infinity * 0 = NaN], every comparison
      with [NaN] is false); the rounding of binary64 arithmetic and the sign
      of zero are not represented.  In binary64 [Math.pow(0.5, n)] is 0 from
      [n = 1075] on and products below [2^-1022] are rounded, so what is
      stated about a raw score being halved or strictly changed is stated
      for games with fewer than 1000 incorrect guesses, where the products
      by powers of two are exact in binary64 as well.
    - A JavaScript string is a [string] of 8-bit characters; [toLowerCase]
      acts on [A]..[Z].  The Unicode [toLowerCase] can change the length of
      a string and can produce a letter from a character that is none
      (U+212A, U+0130); what is stated about the characters of a word is
      therefore stated about the lower-cased word, [toLowerCase w].
    - A JavaScript [Set] of characters is a duplicate-free list in insertion
      order, which is the order [Array.from] and [for .. of] observe. *)

From Stdlib Require Import List Bool Arith ZArith QArith Qround Qpower.
From Stdlib Require Import Strings.String Strings.Ascii.
From Stdlib Require Import Lia Lqa Permutation Sorted.
Import ListNotations.

Local Open Scope nat_scope.
Local Open Scope list_scope.

(** ** JavaScript numbers *)

Module Number.

Inductive number : Type :=
| NaN
| Infinity (negative : bool)
| Fin (q : Q).

Definition is_zero (q : Q) : bool := (Qnum q =? 0)%Z.
Definition is_negative (q : Q) : bool := (Qnum q <? 0)%Z.

Definition of_nat (n : nat) : number := Fin (inject_Z (Z.of_nat n)).

(** [a * b] *)
Definition mul (a b : number) : number :=
  match a, b with
  | NaN, _ | _, NaN => NaN
  | Infinity s, Infinity t => Infinity (xorb s t)
  | Infinity s, Fin q | Fin q, Infinity s =>
      if is_zero q then NaN else Infinity (xorb s (is_negative q))
  | Fin p, Fin q => Fin (p * q)%Q
  end.

(** [a / b] *)
Definition div (a b : number) : number :=
  match a, b with
  | NaN, _ | _, NaN => NaN
  | Infinity _, Infinity _ => NaN
  | Infinity s, Fin q => Infinity (xorb s (is_negative q))
  | Fin _, Infinity _ => Fin 0%Q
  | Fin p, Fin q =>
      if is_zero q
      then (if is_zero p then NaN else Infinity (is_negative p))
      else Fin (p / q)%Q
  end.

(** [a < b] *)
Definition lt (a b : number) : bool :=
  match a, b with
  | NaN, _ | _, NaN => false
  | Infinity s, Infinity t => s && negb t
  | Infinity s, Fin _ => s
  | Fin _, Infinity t => negb t
  | Fin p, Fin q => (Qnum p * QDen q <? Qnum q * QDen p)%Z
  end.

(** [a === b]: [NaN] is not equal to anything, itself included. *)
Definition strict_eq (a b : number) : bool :=
  match a, b with
  | NaN, _ | _, NaN => false
  | Infinity s, Infinity t => Bool.eqb s t
  | Fin p, Fin q => Qeq_bool p q
  | _, _ => false
  end.

(** [Math.round]: the nearest integer, a tie going to the larger one. *)
Definition round (a : number) : number :=
  match a with
  | Fin q => Fin (inject_Z (Qfloor (q + (1 # 2))%Q))
  | _ => a
  end.

(** [Math.pow(0.5, n)] for an integer exponent. *)
Definition pow_half (n : Z) : number := Fin (Qpower (1 # 2)%Q n).

(** [Math.min] on two array sizes. *)
Definition min (a b : nat) : nat := Nat.min a b.

(** A value read from an array or an object is [undefined] when the index
    or key is absent; in arithmetic [undefined] converts to [NaN]. *)
Definition to_number (v : option Q) : number :=
  match v with
  | Some q => Fin q
  | None => NaN
  end.

(** [v || d] for a numeric table entry: [undefined] and [0] are falsy. *)
Definition or_default (v : option Q) (d : Q) : Q :=
  match v with
  | Some q => if is_zero q then d else q
  | None => d
  end.

End Number.

Import Number.

(** ** Characters and sets of characters *)

Module Chars.

Definition in_range (lo hi c : ascii) : bool :=
  (nat_of_ascii lo <=? nat_of_ascii c) && (nat_of_ascii c <=? nat_of_ascii hi).

Definition is_upper (c : ascii) : bool := in_range "A" "Z" c.
Definition is_lower (c : ascii) : bool := in_range "a" "z" c.
Definition is_digit (c : ascii) : bool := in_range "0" "9" c.

(** The character class [[a-z0-9]] under the [i] flag. *)
Definition is_alnum (c : ascii) : bool :=
  is_lower c || is_upper c || is_digit c.

Definition toLowerCase_char (c : ascii) : ascii :=
  if is_upper c then ascii_of_nat (nat_of_ascii c + 32) else c.

Definition toLowerCase (s : string) : list ascii :=
  map toLowerCase_char (list_ascii_of_string s).

End Chars.

Import Chars.

Module CharSet.

Definition t := list ascii.

Definition has (s : t) (c : ascii) : bool :=
  existsb (Ascii.eqb c) s.

(** [s.add(c)]: a new element goes last, a present one changes nothing. *)
Definition add (s : t) (c : ascii) : t :=
  if has s c then s else s ++ [c].

(** [new Set(iterable)] *)
Definition of_list (l : list ascii) : t := fold_left add l [].

Definition size (s : t) : nat := List.length s.

(** [Array.from(s)] *)
Definition to_list (s : t) : list ascii := s.

End CharSet.

(** ** Lookup tables *)

Definition charnum_difficulty : list Q :=
  map inject_Z
    [1; 26; 325; 2600; 14950; 65780; 230230; 657800; 1562275; 3124550;
     5311735; 7726160; 9657700;
     10400600;
     9657700; 7726160; 5311735; 3124550; 1562275; 657800; 230230; 65780;
     14950; 2600; 325; 26; 1]%Z.

Local Open Scope Q_scope.
Local Open Scope char_scope.

Definition letter_difficulty_table : list (ascii * Q) :=
  [ ("a", 122444 # 10000);  ("b", 670241 # 10000);  ("c", 359454 # 10000);
    ("d", 235128 # 10000);  ("e", 787278 # 100000); ("f", 448833 # 10000);
    ("g", 496278 # 10000);  ("h", 164096 # 10000);  ("i", 143554 # 10000);
    ("j", 653595 # 1000);   ("k", 129534 # 1000);   ("l", 248447 # 10000);
    ("m", 415628 # 10000);  ("n", 14817 # 1000);    ("o", 133209 # 10000);
    ("p", 518403 # 10000);  ("q", 105263 # 100);    ("r", 167029 # 10000);
    ("s", 158053 # 10000);  ("t", 110424 # 10000);  ("u", 362582 # 10000);
    ("v", 102249 # 1000);   ("w", 423729 # 10000);  ("x", 666667 # 1000);
    ("y", 506586 # 10000);  ("z", 135135 # 100) ].

Local Close Scope char_scope.
Local Close Scope Q_scope.

(** [letter_difficulty[c]] *)
Definition letter_difficulty (c : ascii) : option Q :=
  option_map snd (find (fun kv => Ascii.eqb (fst kv) c) letter_difficulty_table).

(** ** JSON values and the platform

    [JSON], [Buffer] and [crypto] belong to Node.js, not to the repository.
    They are taken as an interface; the laws state what their documentation
    promises for the serialized game and for one key pair. *)

#[local] Set Warnings "-register-all".

Inductive json : Type :=
| JNull
| JBool (b : bool)
| JNumber (n : nat)
| JString (s : string)
| JArray (l : list json)
| JObject (fields : list (string * json)).

(** [dat.key]: [None] stands for [undefined]. *)
Definition get_field (key : string) (dat : json) : option json :=
  match dat with
  | JObject fields =>
      option_map snd (find (fun kv => String.eqb (fst kv) key) fields)
  | _ => None
  end.

(** The object that [serializeState] builds: the word, the guessed
    characters as an array of one-character strings, the turns. *)
Definition game_json (word : string) (guessed : list ascii) (turns : nat) : json :=
  JObject
    [ ("word"%string, JString word);
      ("charsGuessed"%string,
        JArray (map (fun c => JString (String c EmptyString)) guessed));
      ("turns"%string, JNumber turns) ].

Class Platform : Type := {
  Text : Type;
  Buffer : Type;
  Key : Type;
  Seed : Type;
  JSON_stringify : json -> Text;
  JSON_parse : Text -> option json;
  (** [new Buffer(text)] and the conversion back that [JSON.parse] does *)
  Buffer_from : Text -> Buffer;
  Buffer_toString : Buffer -> Text;
  (** [buffer.toString('base64')] and [new Buffer(text, 'base64')] *)
  toString_base64 : Buffer -> Text;
  Buffer_from_base64 : Text -> Buffer;
  (** The padding of [publicEncrypt] is random: [Seed] is its randomness.
      Both functions throw on bad input, which is [None]. *)
  publicEncrypt : Key -> Seed -> Buffer -> option Buffer;
  privateDecrypt : Key -> Buffer -> option Buffer
}.

Class PlatformLaws (P : Platform) (privateKey : Key) : Prop := {
  JSON_parse_stringify : forall word guessed turns,
    JSON_parse (JSON_stringify (game_json word guessed turns))
    = Some (game_json word guessed turns);
  Buffer_toString_from : forall s, Buffer_toString (Buffer_from s) = s;
  Buffer_base64 : forall b, Buffer_from_base64 (toString_base64 b) = b;
  privateDecrypt_publicEncrypt : forall seed plain cipher,
    publicEncrypt privateKey seed plain = Some cipher ->
    privateDecrypt privateKey cipher = Some plain
}.

(** ** The game *)

Module HangmanGame.

Record t : Type := mk {
  word : string;
  turns : nat;
  charsNeeded : CharSet.t;
  charsGuessed : CharSet.t
}.

(** [new HangmanGame(word, guessed, turns)] *)
Definition constructor (word : string) (guessed : list ascii) (turns : nat) : t :=
  {| word := word;
     turns := turns;
     charsNeeded := CharSet.of_list (filter is_alnum (toLowerCase word));
     charsGuessed := CharSet.of_list guessed |}.

Definition won (g : t) : bool :=
  CharSet.size (charsGuessed g) =? CharSet.size (charsNeeded g).

Definition hiddenWord (g : t) : string :=
  string_of_list_ascii
    (map (fun c =>
            let hide := is_alnum c && negb (CharSet.has (charsGuessed g) c) in
            if hide then "_"%char else c)
         (toLowerCase (word g))).

Definition bruteforceDifficulty (g : t) : number :=
  to_number (nth_error charnum_difficulty (CharSet.size (charsNeeded g))).

Definition avrageLetterDifficulty (g : t) : number :=
  let product :=
    fold_left (fun acc c => mul acc (Fin (or_default (letter_difficulty c) 1%Q)))
              (charsNeeded g) (Fin 1%Q) in
  div product (of_nat (CharSet.size (charsNeeded g))).

Definition turnCoefficient (g : t) : number :=
  div (of_nat (CharSet.size (charsGuessed g)))
      (of_nat (Number.min 1 (CharSet.size (charsNeeded g)))).

Definition badGuessPenalty (g : t) : number :=
  pow_half (Z.of_nat (turns g) - Z.of_nat (CharSet.size (charsGuessed g))).

(** The argument of [round] in [score]. *)
Definition rawScore (g : t) : number :=
  mul (mul (mul (mul (bruteforceDifficulty g) (avrageLetterDifficulty g))
                (turnCoefficient g))
           (badGuessPenalty g))
      (Fin (1 # 10000)%Q).

Definition score (g : t) : number :=
  let score := round (rawScore g) in
  if strict_eq score NaN then Fin 0%Q else score.

(** The object [serializeState] passes to [JSON.stringify]. *)
Definition payload (g : t) : json :=
  game_json (word g) (CharSet.to_list (charsGuessed g)) (turns g).

(** The value returned by [serializeState]. *)
Record state {P : Platform} : Type := mkState {
  state_game : Text;
  state_word : string;
  state_won : bool;
  state_score : number;
  state_turns : nat
}.

(** [serializeState(privateKey)]; [None] when [publicEncrypt] throws. *)
Definition serializeState {P : Platform} (g : t) (privateKey : Key) (seed : Seed)
  : option state :=
  match publicEncrypt privateKey seed (Buffer_from (JSON_stringify (payload g))) with
  | Some cipher =>
      Some {| state_game := toString_base64 cipher;
              state_word := hiddenWord g;
              state_won := won g;
              state_score := score g;
              state_turns := turns g |}
  | None => None
  end.

Definition single_char (v : json) : option ascii :=
  match v with
  | JString (String c EmptyString) => Some c
  | _ => None
  end.

Fixpoint all_single_chars (l : list json) : option (list ascii) :=
  match l with
  | [] => Some []
  | v :: l' =>
      match single_char v, all_single_chars l' with
      | Some c, Some cs => Some (c :: cs)
      | _, _ => None
      end
  end.

(** The [guessed] argument of the constructor, read from [dat.charsGuessed]:
    an absent field takes the default [[]], [null] and strings are
    iterated, a number, a boolean or an object is not iterable and throws.
    An array that holds anything but one-character strings makes a set
    that [CharSet.t] has no value for; it is given [None] as well. *)
Definition guessed_of_json (v : option json) : option (list ascii) :=
  match v with
  | None | Some JNull => Some []
  | Some (JString s) => Some (list_ascii_of_string s)
  | Some (JArray l) => all_single_chars l
  | Some _ => None
  end.

(** The [turns] argument, read from [dat.turns]; absent takes the default
    [0].  Only numbers are represented. *)
Definition turns_of_json (v : option json) : option nat :=
  match v with
  | None => Some 0
  | Some (JNumber n) => Some n
  | Some _ => None
  end.

(** [HangmanGame.decrypt(game, privateKey)]; [None] when it throws. *)
Definition decrypt {P : Platform} (game : Text) (privateKey : Key) : option t :=
  match privateDecrypt privateKey (Buffer_from_base64 game) with
  | None => None
  | Some plain =>
      match JSON_parse (Buffer_toString plain) with
      | None => None
      | Some dat =>
          match get_field "word" dat,
                guessed_of_json (get_field "charsGuessed" dat),
                turns_of_json (get_field "turns" dat) with
          | Some (JString w), Some guessed, Some n => Some (constructor w guessed n)
          | _, _, _ => None
          end
      end
  end.

End HangmanGame.

(** ** The endpoints *)

Module Server.

Inductive HttpException : Type :=
| Http (code : nat) (message : string).

Inductive result (A : Type) : Type :=
| Ok (a : A)
| Throw (e : HttpException).
Arguments Ok {A} a.
Arguments Throw {A} e.

(** [guess.match(/^[a-z0-9]$/i)]: the one character of a matching guess. *)
Definition guess_match (guess : string) : option ascii :=
  match guess with
  | String c EmptyString => if is_alnum c then Some c else None
  | _ => None
  end.

(** The body of the [POST /api/game] handler between [decryptGame] and
    the response, which the specification calls [applyGuess]. *)
Definition applyGuess (game : HangmanGame.t) (guess : string)
  : result HangmanGame.t :=
  if HangmanGame.won game
  then Throw (Http 410 "The game is already won!")
  else
    match guess_match guess with
    | None => Throw (Http 400 "Your guess must be a single letter or digit!")
    | Some c =>
        let guessed :=
          if CharSet.has (HangmanGame.charsNeeded game) c
          then CharSet.add (HangmanGame.charsGuessed game) c
          else HangmanGame.charsGuessed game in
        Ok (HangmanGame.mk (HangmanGame.word game)
                           (S (HangmanGame.turns game))
                           (HangmanGame.charsNeeded game)
                           guessed)
    end.

(** [newGame(word)] of the specification: what [PUT /api/game] builds. *)
Definition newGame (word : string) : HangmanGame.t :=
  HangmanGame.constructor word [] 0.

Definition decryptGame {P : Platform} (gameData : Text) (privateKey : Key)
  : result HangmanGame.t :=
  match HangmanGame.decrypt gameData privateKey with
  | Some game => Ok game
  | None => Throw (Http 400 "Invalid Game!")
  end.

(** A failure of [serializeState] is not an [HttpException]: the handler
    wrapper answers 500. *)
Definition send {P : Platform} (game : HangmanGame.t) (privateKey : Key) (seed : Seed)
  : result HangmanGame.state :=
  match HangmanGame.serializeState game privateKey seed with
  | Some st => Ok st
  | None => Throw (Http 500 "Internal Server Error")
  end.

Definition put_api_game {P : Platform} (word : string) (privateKey : Key) (seed : Seed)
  : result HangmanGame.state :=
  send (newGame word) privateKey seed.

Definition post_api_game {P : Platform} (guess : string) (gameData : Text)
           (privateKey : Key) (seed : Seed) : result HangmanGame.state :=
  match decryptGame gameData privateKey with
  | Throw e => Throw e
  | Ok game =>
      match applyGuess game guess with
      | Throw e => Throw e
      | Ok game' => send game' privateKey seed
      end
  end.

(** The games a player can hold: a new game, then accepted guesses. *)
Inductive reachable (w : string) : HangmanGame.t -> Prop :=
| reachable_new : reachable w (newGame w)
| reachable_guess g guess g' :
    reachable w g -> applyGuess g guess = Ok g' -> reachable w g'.

(** Submitting the characters of [guesses] one after the other. *)
Fixpoint play (game : HangmanGame.t) (guesses : list ascii)
  : result HangmanGame.t :=
  match guesses with
  | [] => Ok game
  | c :: rest =>
      match applyGuess game (String c EmptyString) with
      | Ok game' => play game' rest
      | Throw e => Throw e
      end
  end.

End Server.

(** ** The high score table

    The table is the one shared object of the server.  Node.js runs the
    handlers and the sync coroutine on one thread: a piece of code between
    two [await]s runs without interruption.  A state of the store is the
    table together with what the coroutine and the file system are doing,
    and a step is one such uninterrupted piece. *)

Module Highscores.

Record entry : Type := mkEntry {
  score : number;
  nick : string
}.

Record t : Type := mk {
  _max : nat;
  value : list entry;
  (** the promise [syncSlot] the coroutine awaits has been resolved *)
  syncSlot : bool;
  (** the argument of every [writeFile] call that has not finished *)
  writing : list (list entry);
  (** the argument of the latest [writeFile] call, the loaded table before
      the first one *)
  last_write : list entry
}.

(** The store once [_readyPromise] is fulfilled with the table [loaded];
    the coroutine has run up to its first [await]. *)
Definition constructor (loaded : list entry) (max_highscores : nat) : t :=
  {| _max := max_highscores;
     value := loaded;
     syncSlot := false;
     writing := [];
     last_write := loaded |}.

(** [array.splice(start, deleteCount, ...items)] for [start >= 0]. *)
Definition splice {A : Type} (array : list A) (start : nat) (deleteCount : Z)
           (items : list A) : list A :=
  let len := List.length array in
  let actualStart := Nat.min start len in
  let actualDeleteCount :=
    Z.to_nat (Z.min (Z.max deleteCount 0) (Z.of_nat (len - actualStart))) in
  firstn actualStart array ++ items ++ skipn (actualStart + actualDeleteCount) array.

(** [for (; idx > 0 && value[idx-1].score < score; idx--);] *)
Fixpoint scan (value : list entry) (score0 : number) (idx : nat) : nat :=
  match idx with
  | 0 => 0
  | S i =>
      match nth_error value i with
      | Some e => if lt (score e) score0 then scan value score0 i else idx
      | None => idx
      end
  end.

Definition insertion_index (value : list entry) (score0 : number) : nat :=
  scan value score0 (List.length value).

(** [add({nick, score})] after [await this._readyPromise]. *)
Definition add (h : t) (e : entry) : t :=
  let idx := insertion_index (value h) (score e) in
  if idx <? _max h then
    let inserted := splice (value h) idx 0 [mkEntry (score e) (nick e)] in
    let limited :=
      splice inserted (_max h)
             (Z.of_nat (List.length inserted) - Z.of_nat (_max h)) [] in
    {| _max := _max h;
       value := limited;
       syncSlot := true;
       writing := writing h;
       last_write := last_write h |}
  else h.

(** One turn of the loop of [_startHighscoreSync], from the moment
    [await syncSlot] resumes to the next [await]: a fresh promise is
    installed, [writeFile] is called and not awaited. *)
Definition sync (h : t) : t :=
  {| _max := _max h;
     value := value h;
     syncSlot := false;
     writing := value h :: writing h;
     last_write := value h |}.

(** The file system finishes the [writeFile] call at position [i]. *)
Definition finish (h : t) (i : nat) : t :=
  {| _max := _max h;
     value := value h;
     syncSlot := syncSlot h;
     writing := firstn i (writing h) ++ skipn (S i) (writing h);
     last_write := last_write h |}.

Inductive step : t -> t -> Prop :=
| step_add h e : step h (add h e)
| step_sync h : syncSlot h = true -> step h (sync h)
| step_finish h i : i < List.length (writing h) -> step h (finish h i).

Inductive steps : t -> t -> Prop :=
| steps_refl h : steps h h
| steps_step h1 h2 h3 : steps h1 h2 -> step h2 h3 -> steps h1 h3.

(** Stable insertion into a descending table, as the specification words
    it: after every entry whose score is not lower. *)
Fixpoint insert_desc (e : entry) (l : list entry) : list entry :=
  match l with
  | [] => [e]
  | x :: l' => if lt (score x) (score e) then e :: l else x :: insert_desc e l'
  end.

(** [a] is ranked no lower than [b]. *)
Definition not_below (a b : entry) : Prop := lt (score a) (score b) = false.

Definition scored (e : entry) : Prop := score e <> NaN.

(** The whole ranking of the submissions [es], without a capacity. *)
Definition sort_desc (es : list entry) : list entry :=
  fold_left (fun l e => insert_desc e l) es [].

Definition lower (score0 : number) (x : entry) : Prop :=
  lt (score x) score0 = true.

End Highscores.

(** The turn coefficient as the specification words it, with the needed
    count guarded below by one. *)
Definition turnCoefficient_spec (g : HangmanGame.t) : number :=
  div (of_nat (CharSet.size (HangmanGame.charsGuessed g)))
      (of_nat (Nat.max 1 (CharSet.size (HangmanGame.charsNeeded g)))).

(** Equality of numbers as values. *)
Definition num_eq (a b : number) : Prop :=
  match a, b with
  | NaN, NaN => True
  | Infinity s, Infinity t => s = t
  | Fin p, Fin q => (p == q)%Q
  | _, _ => False
  end.

(** The game after one more guess that added nothing. *)
Definition after_wrong_guess (g : HangmanGame.t) : HangmanGame.t :=
  HangmanGame.mk (HangmanGame.word g) (S (HangmanGame.turns g))
                 (HangmanGame.charsNeeded g) (HangmanGame.charsGuessed g).

(** What the constructor establishes and a guess keeps: the needed
    characters are those of the word and no guessed character is repeated. *)
Definition well_formed (g : HangmanGame.t) : Prop :=
  HangmanGame.charsNeeded g
  = CharSet.of_list (filter is_alnum (toLowerCase (HangmanGame.word g))) /\
  NoDup (HangmanGame.charsGuessed g).

(** The platform that stores every value as it is: texts and buffers are
    JSON values, encryption changes nothing.  It satisfies the laws and
    lets the token functions be run. *)
Definition plain_platform : Platform :=
  {| Text := json;
     Buffer := json;
     Key := unit;
     Seed := unit;
     JSON_stringify := fun v => v;
     JSON_parse := fun s => Some s;
     Buffer_from := fun s => s;
     Buffer_toString := fun b => b;
     toString_base64 := fun b => b;
     Buffer_from_base64 := fun s => s;
     publicEncrypt := fun _ _ plain => Some plain;
     privateDecrypt := fun _ cipher => Some cipher |}.

(** Sample submissions and a full table, to run [add] on. *)
Definition submission (z : Z) : Highscores.entry :=
  Highscores.mkEntry (Fin (inject_Z z)) "player".

Definition seven_submissions : list Highscores.entry :=
  map submission [3; 9; 1; 7; 5; 8; 2]%Z.

Definition full_table : Highscores.t :=
  Highscores.constructor (map submission [9; 8; 7; 5; 3]%Z) 5.

(** The two invariants the specification gives for a game. *)
Definition game_invariant (g : HangmanGame.t) : Prop :=
  incl (HangmanGame.charsGuessed g) (HangmanGame.charsNeeded g) /\
  CharSet.size (HangmanGame.charsGuessed g) <= HangmanGame.turns g.

(** ** The high score endpoints *)

Module Api.

(** The class [\w]. *)
Definition is_word_char (c : ascii) : bool :=
  is_alnum c || Ascii.eqb c "_".

(** [nick.match(/^\w/)] *)
Definition nick_match (nick : string) : bool :=
  match nick with
  | String c _ => is_word_char c
  | EmptyString => false
  end.

(** [badNick] for the [nick] of a parsed request body, [None] being
    [undefined]: [isInstance(nick, String)] holds for strings only, and
    the other tests are not reached without it. *)
Definition badNick (nick : option json) : bool :=
  match nick with
  | Some (JString s) =>
      negb (nick_match s) || (String.length s <? 1) || (16 <? String.length s)
  | _ => true
  end.

(** [GET /api/highscore] *)
Definition get_api_highscore (h : Highscores.t) : list Highscores.entry :=
  Highscores.value h.

(** The body of the [POST /api/highscore] handler after [decryptGame]:
    the store after the request, or the exception. *)
Definition submit (game : HangmanGame.t) (nick : option json) (h : Highscores.t)
  : Server.result Highscores.t :=
  let score := HangmanGame.score game in
  if negb (HangmanGame.won game)
  then Server.Throw (Server.Http 400 "The game is not yet won!")
  else if badNick nick
  then Server.Throw
         (Server.Http 400
            "Nick must be a string between 1 and 16 chars and contain no special chars.")
  else
    match nick with
    | Some (JString s) => Server.Ok (Highscores.add h (Highscores.mkEntry score s))
    | _ => Server.Ok h (* not reached: [badNick] holds for these *)
    end.

Definition post_api_highscore {P : Platform} (nick : option json) (gameData : Text)
           (privateKey : Key) (h : Highscores.t) : Server.result Highscores.t :=
  match Server.decryptGame gameData privateKey with
  | Server.Throw e => Server.Throw e
  | Server.Ok game => submit game nick h
  end.

End Api.

(** ** The browser client *)

Module Client.

(** [c.match(/[a-z0-9]/)]: some character of [c] is a lower-case letter or
    a digit. *)
Definition has_guessable (c : string) : bool :=
  existsb (fun a => is_lower a || is_digit a) (list_ascii_of_string c).

(** The key press handler: the guess it posts for the key [key] when the
    last state had [won], or [None] when it returns at once. *)
Definition keypress (key : string) (won : bool) : option string :=
  let c := string_of_list_ascii (toLowerCase key) in
  if negb (has_guessable c) || won then None else Some c.

End Client.

(** The probability in the comment above [charnum_difficulty]: the product
    of [(charnum - i) / (26 - i)] for [i] below [charnum]. *)
Definition bruteforce_probability (charnum : nat) : Q :=
  fold_left
    (fun p i =>
       (p * (inject_Z (Z.of_nat (charnum - i)) / inject_Z (Z.of_nat (26 - i))))%Q)
    (seq 0 charnum) 1%Q.

(** The 36 characters a guess can match. *)
Definition guessable_chars : list ascii :=
  list_ascii_of_string "abcdefghijklmnopqrstuvwxyz0123456789".

Example hidden_23_foo :
  HangmanGame.hiddenWord (Server.newGame "23 foo!") = "__ ___!"%string.
Proof. reflexivity. Qed.

Example score_ab :
  HangmanGame.score (HangmanGame.constructor "ab" ["a"; "b"]%char 2) = Fin 27%Q.
Proof. vm_compute. reflexivity. Qed.

Example add_seven :
  Highscores.value
    (fold_left Highscores.add seven_submissions (Highscores.constructor [] 5))
  = map submission [9; 8; 7; 5; 3]%Z.
Proof. reflexivity. Qed.

(** * Properties *)

(** ** Sets of characters *)

Section CharSetFacts.

Import CharSet.

Lemma has_In (s : CharSet.t) (c : ascii) : has s c = true <-> In c s.
Proof.
  unfold has. rewrite existsb_exists. split.
  - intros [x [Hin Heq]]. apply Ascii.eqb_eq in Heq. now subst.
  - intros Hin. exists c. split; [assumption | apply Ascii.eqb_refl].
Qed.

Lemma has_false (s : CharSet.t) (c : ascii) : has s c = false <-> ~ In c s.
Proof.
  rewrite <- has_In. destruct (has s c); split; congruence.
Qed.

Lemma add_absent (s : CharSet.t) (c : ascii) : ~ In c s -> add s c = s ++ [c].
Proof. intros H. unfold add. apply has_false in H. now rewrite H. Qed.

Lemma add_present (s : CharSet.t) (c : ascii) : In c s -> add s c = s.
Proof. intros H. unfold add. apply has_In in H. now rewrite H. Qed.

Lemma In_add (s : CharSet.t) (c x : ascii) : In x (add s c) <-> In x s \/ x = c.
Proof.
  unfold add. destruct (has s c) eqn:E.
  - apply has_In in E. split; [tauto | intros [H | ->]; assumption].
  - rewrite in_app_iff. simpl. intuition congruence.
Qed.

Lemma NoDup_add (s : CharSet.t) (c : ascii) : NoDup s -> NoDup (add s c).
Proof.
  intros H. unfold add. destruct (has s c) eqn:E; [assumption |].
  apply has_false in E.
  apply NoDup_rev in H. rewrite <- (rev_involutive (s ++ [c])).
  apply NoDup_rev. rewrite rev_app_distr. simpl. constructor.
  - now rewrite <- in_rev.
  - assumption.
Qed.

Lemma size_add_le (s : CharSet.t) (c : ascii) : size (add s c) <= S (size s).
Proof.
  unfold add, size. destruct (has s c); [lia |].
  rewrite length_app. simpl. lia.
Qed.

Lemma In_fold_add (l : list ascii) (acc : CharSet.t) (x : ascii) :
  In x (fold_left add l acc) <-> In x acc \/ In x l.
Proof.
  revert acc. induction l as [| c l IH]; intros acc; simpl.
  - tauto.
  - rewrite IH, In_add. intuition congruence.
Qed.

Lemma NoDup_fold_add (l : list ascii) (acc : CharSet.t) :
  NoDup acc -> NoDup (fold_left add l acc).
Proof.
  revert acc. induction l as [| c l IH]; intros acc H; simpl.
  - assumption.
  - apply IH. now apply NoDup_add.
Qed.

Lemma fold_add_NoDup (l : list ascii) (acc : CharSet.t) :
  NoDup (acc ++ l) -> fold_left add l acc = acc ++ l.
Proof.
  revert acc. induction l as [| c l IH]; intros acc H; simpl.
  - now rewrite app_nil_r.
  - rewrite add_absent.
    + rewrite IH; rewrite <- app_assoc; [reflexivity | exact H].
    + apply NoDup_remove_2 in H. intros Hin. apply H.
      apply in_or_app. now left.
Qed.

Lemma of_list_In (l : list ascii) (x : ascii) : In x (of_list l) <-> In x l.
Proof. unfold of_list. rewrite In_fold_add. simpl. tauto. Qed.

Lemma of_list_NoDup (l : list ascii) : NoDup (of_list l).
Proof. apply NoDup_fold_add. constructor. Qed.

Lemma of_list_id (l : list ascii) : NoDup l -> of_list l = l.
Proof. intros H. unfold of_list. now rewrite fold_add_NoDup. Qed.

End CharSetFacts.

(** ** Characters *)

Lemma is_alnum_toLowerCase (c : ascii) :
  is_alnum (toLowerCase_char c) = is_alnum c.
Proof.
  destruct c as [[] [] [] [] [] [] [] []]; reflexivity.
Qed.

Lemma filter_nil_iff {A : Type} (f : A -> bool) (l : list A) :
  filter f l = [] <-> forall x, In x l -> f x = false.
Proof.
  induction l as [| a l IH]; simpl.
  - tauto.
  - destruct (f a) eqn:E.
    + split; [discriminate |]. intros H. specialize (H a (or_introl eq_refl)).
      congruence.
    + rewrite IH. split.
      * intros H x [-> | Hx]; auto.
      * intros H x Hx. apply H. now right.
Qed.

(** ** New games, guesses and the invariants *)

Lemma charsNeeded_newGame (w : string) (c : ascii) :
  In c (HangmanGame.charsNeeded (Server.newGame w)) <->
  In c (filter is_alnum (toLowerCase w)).
Proof. simpl. apply of_list_In. Qed.

Lemma charsNeeded_alnum (w : string) (c : ascii) :
  In c (HangmanGame.charsNeeded (Server.newGame w)) -> is_alnum c = true.
Proof.
  rewrite charsNeeded_newGame, filter_In. tauto.
Qed.

Lemma won_newGame (w : string) :
  HangmanGame.won (Server.newGame w) = false <->
  exists c, In c (toLowerCase w) /\ is_alnum c = true.
Proof.
  unfold HangmanGame.won. simpl.
  destruct (CharSet.of_list (filter is_alnum (toLowerCase w))) as [| a s] eqn:E.
  - simpl. split; [discriminate |].
    intros [c [Hin Hc]]. exfalso.
    assert (Hc' : In c (CharSet.of_list (filter is_alnum (toLowerCase w)))).
    { apply of_list_In, filter_In. now split. }
    rewrite E in Hc'. destruct Hc'.
  - simpl. split; [intros _ | reflexivity].
    assert (Ha : In a (filter is_alnum (toLowerCase w))).
    { apply of_list_In. rewrite E. now left. }
    apply filter_In in Ha. exists a. exact Ha.
Qed.

(** C7, as stated, fails: a word without a letter or a digit starts won. *)
Lemma newGame_without_letters_is_won :
  HangmanGame.won (Server.newGame "") = true /\
  HangmanGame.won (Server.newGame "?!") = true /\
  ~ (forall w, HangmanGame.won (Server.newGame w) = false).
Proof.
  split; [reflexivity | split; [reflexivity |]].
  intros H. specialize (H ""%string). discriminate H.
Qed.

(** C7 (amended): a new game has no turn and no guessed character, needs
    exactly the distinct letters and digits of its lower-cased word, and is
    not won exactly when the lower-cased word has a letter or a digit, that
    is, when a character is needed. *)
Theorem newGame_initial_state (w : string) :
  HangmanGame.word (Server.newGame w) = w /\
  HangmanGame.turns (Server.newGame w) = 0 /\
  HangmanGame.charsGuessed (Server.newGame w) = [] /\
  NoDup (HangmanGame.charsNeeded (Server.newGame w)) /\
  (forall c, In c (HangmanGame.charsNeeded (Server.newGame w)) <->
             In c (filter is_alnum (toLowerCase w))) /\
  (HangmanGame.won (Server.newGame w) = false <->
   exists c, In c (toLowerCase w) /\ is_alnum c = true) /\
  (HangmanGame.won (Server.newGame w) = false <->
   HangmanGame.charsNeeded (Server.newGame w) <> []).
Proof.
  split; [reflexivity |]. split; [reflexivity |]. split; [reflexivity |].
  split; [apply of_list_NoDup |].
  split; [intros c; apply charsNeeded_newGame |].
  split; [apply won_newGame |].
  unfold HangmanGame.won. simpl.
  destruct (CharSet.of_list (filter is_alnum (toLowerCase w))); simpl.
  - split; [discriminate | intros H; now contradiction H].
  - split; [intros _; discriminate | reflexivity].
Qed.

Lemma applyGuess_inv (g g' : HangmanGame.t) (guess : string) :
  Server.applyGuess g guess = Server.Ok g' ->
  HangmanGame.won g = false /\
  exists c, guess = String c EmptyString /\ is_alnum c = true /\
    g' = HangmanGame.mk (HangmanGame.word g) (S (HangmanGame.turns g))
           (HangmanGame.charsNeeded g)
           (if CharSet.has (HangmanGame.charsNeeded g) c
            then CharSet.add (HangmanGame.charsGuessed g) c
            else HangmanGame.charsGuessed g).
Proof.
  unfold Server.applyGuess, Server.guess_match.
  destruct (HangmanGame.won g); [discriminate |].
  destruct guess as [| c [| c' rest]]; try discriminate.
  destruct (is_alnum c) eqn:E; [| discriminate].
  intros H. injection H as <-. split; [reflexivity |].
  exists c. repeat split; assumption.
Qed.

Lemma applyGuess_preserves_invariant (g g' : HangmanGame.t) (guess : string) :
  game_invariant g -> Server.applyGuess g guess = Server.Ok g' -> game_invariant g'.
Proof.
  intros [Hincl Hturns] H.
  apply applyGuess_inv in H. destruct H as [_ [c [_ [_ ->]]]].
  unfold game_invariant. simpl.
  destruct (CharSet.has (HangmanGame.charsNeeded g) c) eqn:E.
  - split.
    + intros x Hx. apply In_add in Hx. destruct Hx as [Hx | ->].
      * now apply Hincl.
      * now apply has_In.
    + pose proof (size_add_le (HangmanGame.charsGuessed g) c). lia.
  - split; [assumption | lia].
Qed.

(** C6: every game reached from a new game by accepted guesses has its
    guessed characters among the needed ones and at least as many turns as
    guessed characters, and every single guess preserves both. *)
Theorem game_invariant_reachable :
  (forall w g, Server.reachable w g -> game_invariant g) /\
  (forall g guess g',
      game_invariant g -> Server.applyGuess g guess = Server.Ok g' ->
      game_invariant g').
Proof.
  split.
  - intros w g H. induction H as [| g guess g' _ IH Hstep].
    + split; simpl; [intros x [] | lia].
    + eapply applyGuess_preserves_invariant; eassumption.
  - intros g guess g'. apply applyGuess_preserves_invariant.
Qed.

Lemma game_invariant_reachable_witness :
  game_invariant (HangmanGame.mk "ab" 2 ["a"; "b"]%char ["b"]%char).
Proof.
  apply (proj2 game_invariant_reachable
               (HangmanGame.mk "ab" 1 ["a"; "b"]%char ["b"]%char) "x"%string).
  - apply (proj1 game_invariant_reachable "ab"%string).
    apply Server.reachable_guess with (g := Server.newGame "ab") (guess := "b"%string).
    + apply Server.reachable_new.
    + reflexivity.
  - reflexivity.
Defined.

(** ** Guessing every needed character *)

Lemma applyGuess_char (g : HangmanGame.t) (c : ascii) :
  HangmanGame.won g = false -> is_alnum c = true ->
  Server.applyGuess g (String c EmptyString) =
  Server.Ok (HangmanGame.mk (HangmanGame.word g) (S (HangmanGame.turns g))
               (HangmanGame.charsNeeded g)
               (if CharSet.has (HangmanGame.charsNeeded g) c
                then CharSet.add (HangmanGame.charsGuessed g) c
                else HangmanGame.charsGuessed g)).
Proof.
  intros Hwon Hc. unfold Server.applyGuess, Server.guess_match.
  now rewrite Hwon, Hc.
Qed.

Lemma play_remaining (guesses : list ascii) :
  forall g,
    NoDup (HangmanGame.charsGuessed g ++ guesses) ->
    Permutation (HangmanGame.charsGuessed g ++ guesses) (HangmanGame.charsNeeded g) ->
    (forall c, In c (HangmanGame.charsNeeded g) -> is_alnum c = true) ->
    exists g',
      Server.play g guesses = Server.Ok g' /\
      HangmanGame.won g' = true /\
      HangmanGame.turns g' = HangmanGame.turns g + List.length guesses /\
      HangmanGame.charsGuessed g' = HangmanGame.charsGuessed g ++ guesses.
Proof.
  induction guesses as [| c rest IH]; intros g Hnd Hperm Halnum.
  - exists g. rewrite app_nil_r in *. simpl.
    repeat split; try lia.
    unfold HangmanGame.won, CharSet.size.
    rewrite (Permutation_length Hperm). apply Nat.eqb_refl.
  - assert (Hneeded : In c (HangmanGame.charsNeeded g)).
    { eapply Permutation_in; [exact Hperm |]. apply in_or_app. right. now left. }
    assert (Hfresh : ~ In c (HangmanGame.charsGuessed g)).
    { apply NoDup_remove_2 in Hnd. intros Hin. apply Hnd. apply in_or_app. now left. }
    assert (Hwon : HangmanGame.won g = false).
    { unfold HangmanGame.won, CharSet.size. apply Nat.eqb_neq.
      rewrite <- (Permutation_length Hperm), length_app. simpl. lia. }
    simpl Server.play.
    rewrite (applyGuess_char g c Hwon (Halnum c Hneeded)).
    apply has_In in Hneeded. rewrite Hneeded.
    rewrite (add_absent _ _ Hfresh).
    match goal with |- context [Server.play ?g1 rest] => destruct (IH g1) as [g' Hg'] end.
    + simpl. now rewrite <- app_assoc.
    + simpl. now rewrite <- app_assoc.
    + exact Halnum.
    + destruct Hg' as [Hplay [Hw [Ht Hg]]]. simpl in Ht, Hg.
      exists g'. repeat split; try assumption.
      * simpl. lia.
      * rewrite Hg. now rewrite <- app_assoc.
Qed.

(** C3: the handler accepts an upper-case letter as a guess and then
    compares the guess as it was sent, so it can never match.  For the word
    ["a"] the guess ["A"] is accepted, its lower-cased form is needed, and
    yet nothing is added and the game is not won. *)
Lemma uppercase_guess_is_wrong :
  CharSet.has (HangmanGame.charsNeeded (Server.newGame "a"))
              (toLowerCase_char "A") = true /\
  Server.play (Server.newGame "a") ["A"%char]
  = Server.Ok (HangmanGame.mk "a" 1 ["a"%char] []) /\
  HangmanGame.won (HangmanGame.mk "a" 1 ["a"%char] []) = false.
Proof. repeat split. Qed.

(** X26: an accepted guess is added to the guessed characters when the
    character as it was sent is a needed one, and for every word,
    submitting each needed character once, as it stands in [charsNeeded], in
    any order, ends with a won game after that many turns. *)
Theorem guessing_all_needed_wins :
  (forall g c,
      HangmanGame.won g = false -> is_alnum c = true ->
      Server.applyGuess g (String c EmptyString) =
      Server.Ok (HangmanGame.mk (HangmanGame.word g) (S (HangmanGame.turns g))
                   (HangmanGame.charsNeeded g)
                   (if CharSet.has (HangmanGame.charsNeeded g) c
                    then CharSet.add (HangmanGame.charsGuessed g) c
                    else HangmanGame.charsGuessed g))) /\
  (forall w guesses,
      Permutation guesses (HangmanGame.charsNeeded (Server.newGame w)) ->
      exists g,
        Server.play (Server.newGame w) guesses = Server.Ok g /\
        HangmanGame.won g = true /\
        HangmanGame.turns g = List.length guesses /\
        HangmanGame.charsGuessed g = guesses).
Proof.
  split; [exact applyGuess_char |].
  intros w guesses Hperm.
  destruct (play_remaining guesses (Server.newGame w)) as [g [Hplay [Hw [Ht Hg]]]].
  - simpl. eapply Permutation_NoDup.
    + apply Permutation_sym. exact Hperm.
    + apply of_list_NoDup.
  - exact Hperm.
  - apply charsNeeded_alnum.
  - exists g. repeat split; assumption.
Qed.

Lemma guessing_all_needed_wins_witness :
  Server.applyGuess (Server.newGame "a") "A"
  = Server.Ok (HangmanGame.mk "a" 1 ["a"%char] []) /\
  exists g,
    Server.play (Server.newGame "Foo 2") ["2"; "o"; "f"]%char = Server.Ok g /\
    HangmanGame.won g = true /\
    HangmanGame.turns g = 3 /\
    HangmanGame.charsGuessed g = ["2"; "o"; "f"]%char.
Proof.
  split.
  - apply (proj1 guessing_all_needed_wins (Server.newGame "a") "A"%char);
      reflexivity.
  - apply (proj2 guessing_all_needed_wins "Foo 2"%string ["2"; "o"; "f"]%char).
    change (HangmanGame.charsNeeded (Server.newGame "Foo 2")) with ["f"; "o"; "2"]%char.
    apply Permutation_rev with (l := ["2"; "o"; "f"]%char).
Defined.

(** ** Numbers *)

Lemma lt_Fin (p q : Q) : lt (Fin p) (Fin q) = true <-> (p < q)%Q.
Proof. simpl. rewrite Z.ltb_lt. reflexivity. Qed.

Lemma lt_Fin_false (p q : Q) : lt (Fin p) (Fin q) = false <-> (q <= p)%Q.
Proof.
  simpl. rewrite Z.ltb_ge. reflexivity.
Qed.

Lemma strict_eq_NaN (a : number) : strict_eq a NaN = false.
Proof. destruct a; reflexivity. Qed.

Lemma is_zero_false (q : Q) : (0 < q)%Q -> is_zero q = false.
Proof.
  unfold is_zero, Qlt. simpl. intros H. apply Z.eqb_neq. lia.
Qed.

Lemma of_nat_pos (n : nat) : 1 <= n -> (0 < inject_Z (Z.of_nat n))%Q.
Proof.
  intros H. unfold Qlt. simpl. lia.
Qed.

Lemma of_nat_nonneg (n : nat) : (0 <= inject_Z (Z.of_nat n))%Q.
Proof. unfold Qle. simpl. lia. Qed.

(** ** The factors of the score *)

Lemma charnum_difficulty_pos :
  Forall (fun q => (0 < q)%Q) charnum_difficulty.
Proof. unfold charnum_difficulty. simpl. repeat constructor. Qed.

Lemma bruteforceDifficulty_fin (g : HangmanGame.t) :
  CharSet.size (HangmanGame.charsNeeded g) <= 26 ->
  exists b, HangmanGame.bruteforceDifficulty g = Fin b /\ (0 < b)%Q.
Proof.
  intros H. unfold HangmanGame.bruteforceDifficulty.
  destruct (nth_error charnum_difficulty (CharSet.size (HangmanGame.charsNeeded g)))
    as [b |] eqn:E.
  - exists b. split; [reflexivity |].
    apply nth_error_In in E.
    exact (proj1 (Forall_forall _ _) charnum_difficulty_pos b E).
  - apply nth_error_None in E. simpl in E. lia.
Qed.

Lemma letter_weight_pos (c : ascii) :
  (0 < or_default (letter_difficulty c) 1)%Q.
Proof.
  destruct c as [[] [] [] [] [] [] [] []]; reflexivity.
Qed.

Lemma letter_product_fin (l : list ascii) (a : Q) :
  (0 < a)%Q ->
  exists p,
    fold_left (fun acc c => mul acc (Fin (or_default (letter_difficulty c) 1%Q)))
              l (Fin a) = Fin p /\ (0 < p)%Q.
Proof.
  revert a. induction l as [| c l IH]; intros a Ha; simpl.
  - exists a. split; [reflexivity | assumption].
  - apply IH. apply Qmult_lt_0_compat; [assumption | apply letter_weight_pos].
Qed.

Lemma avrageLetterDifficulty_fin (g : HangmanGame.t) :
  1 <= CharSet.size (HangmanGame.charsNeeded g) ->
  exists a, HangmanGame.avrageLetterDifficulty g = Fin a /\ (0 < a)%Q.
Proof.
  intros H. unfold HangmanGame.avrageLetterDifficulty.
  destruct (letter_product_fin (HangmanGame.charsNeeded g) 1%Q) as [p [Hp Hpos]];
    [reflexivity |].
  rewrite Hp. unfold of_nat, div.
  rewrite (is_zero_false _ (of_nat_pos _ H)).
  eexists. split; [reflexivity |].
  apply Qlt_shift_div_l; [now apply of_nat_pos |].
  now rewrite Qmult_0_l.
Qed.

Lemma turnCoefficient_nonempty (g : HangmanGame.t) :
  1 <= CharSet.size (HangmanGame.charsNeeded g) ->
  HangmanGame.turnCoefficient g
  = Fin (inject_Z (Z.of_nat (CharSet.size (HangmanGame.charsGuessed g))) / 1)%Q.
Proof.
  intros H. unfold HangmanGame.turnCoefficient, Number.min.
  replace (Nat.min 1 (CharSet.size (HangmanGame.charsNeeded g))) with 1 by lia.
  reflexivity.
Qed.

Lemma Qpower_half_pos (z : Z) : (0 < Qpower (1 # 2) z)%Q.
Proof. apply Qpower_0_lt. reflexivity. Qed.

Lemma Qpower_half_succ (z : Z) :
  (Qpower (1 # 2) (z + 1) == Qpower (1 # 2) z * (1 # 2))%Q.
Proof.
  rewrite Qpower_plus; [| discriminate]. reflexivity.
Qed.

Lemma rawScore_fin (needed guessed : CharSet.t) :
  1 <= CharSet.size needed <= 26 ->
  exists k, (0 < k)%Q /\
    forall w t,
      HangmanGame.rawScore (HangmanGame.mk w t needed guessed)
      = Fin (k * (inject_Z (Z.of_nat (CharSet.size guessed)) / 1)
             * Qpower (1 # 2) (Z.of_nat t - Z.of_nat (CharSet.size guessed))
             * (1 # 10000))%Q.
Proof.
  intros [Hlo Hhi].
  destruct (bruteforceDifficulty_fin (HangmanGame.mk "" 0 needed guessed) Hhi)
    as [b [Hb Hbpos]].
  destruct (avrageLetterDifficulty_fin (HangmanGame.mk "" 0 needed guessed) Hlo)
    as [a [Ha Hapos]].
  exists (b * a)%Q. split; [now apply Qmult_lt_0_compat |].
  intros w t. unfold HangmanGame.rawScore.
  change (HangmanGame.bruteforceDifficulty (HangmanGame.mk w t needed guessed))
    with (HangmanGame.bruteforceDifficulty (HangmanGame.mk "" 0 needed guessed)).
  change (HangmanGame.avrageLetterDifficulty (HangmanGame.mk w t needed guessed))
    with (HangmanGame.avrageLetterDifficulty (HangmanGame.mk "" 0 needed guessed)).
  rewrite Hb, Ha, turnCoefficient_nonempty by exact Hlo.
  reflexivity.
Qed.

Lemma rawScore_nonneg_factor (k : Q) (n : nat) (z : Z) :
  (0 < k)%Q ->
  (0 <= k * (inject_Z (Z.of_nat n) / 1) * Qpower (1 # 2) z * (1 # 10000))%Q.
Proof.
  intros Hk.
  pose proof (of_nat_nonneg n) as Hn.
  pose proof (Qpower_half_pos z) as Hp.
  assert (H1 : (0 <= inject_Z (Z.of_nat n) / 1)%Q).
  { unfold Qdiv. change (/ 1)%Q with 1%Q. now rewrite Qmult_1_r. }
  apply Qmult_le_0_compat; [| unfold Qle; simpl; lia].
  apply Qmult_le_0_compat; [| now apply Qlt_le_weak].
  apply Qmult_le_0_compat; [now apply Qlt_le_weak | assumption].
Qed.

Lemma round_nonneg (q : Q) : (0 <= q)%Q -> (0 <= Qfloor (q + (1 # 2)))%Z.
Proof.
  intros H. change 0%Z with (Qfloor 0). apply Qfloor_resp_le. lra.
Qed.

Lemma score_fin (g : HangmanGame.t) (q : Q) :
  HangmanGame.rawScore g = Fin q ->
  HangmanGame.score g = Fin (inject_Z (Qfloor (q + (1 # 2)))).
Proof.
  intros H. unfold HangmanGame.score. rewrite H. reflexivity.
Qed.

(** Within the domain of the table (1 to 26 needed characters) the score
    is a non-negative integer. *)
Lemma score_nonneg_integer (g : HangmanGame.t) :
  1 <= CharSet.size (HangmanGame.charsNeeded g) <= 26 ->
  exists z, HangmanGame.score g = Fin (inject_Z z) /\ (0 <= z)%Z.
Proof.
  intros H. destruct g as [w t needed guessed]. simpl in H.
  destruct (rawScore_fin needed guessed H) as [k [Hk Hraw]].
  eexists. split.
  - apply score_fin. apply Hraw.
  - apply round_nonneg. now apply rawScore_nonneg_factor.
Qed.

(** ** The turn coefficient and the guard on the result *)

Lemma turnCoefficient_is_guessed_count (g : HangmanGame.t) :
  1 <= CharSet.size (HangmanGame.charsNeeded g) ->
  num_eq (HangmanGame.turnCoefficient g)
         (of_nat (CharSet.size (HangmanGame.charsGuessed g))).
Proof.
  intros H. rewrite turnCoefficient_nonempty by exact H.
  unfold of_nat, num_eq, Qdiv. change (/ 1)%Q with 1%Q. apply Qmult_1_r.
Qed.

(** C1: the code divides by [min(1, |charsNeeded|)], not by
    [max(1, |charsNeeded|)].  After the correct guess ["a"] on the word
    ["ab"] the coefficient is 1 where the claim gives 1/2, and for a word
    without letters the divisor is 0 and the coefficient is [0/0 = NaN]. *)
Theorem turnCoefficient_divides_by_min :
  Server.play (Server.newGame "ab") ["a"%char]
  = Server.Ok (HangmanGame.mk "ab" 1 ["a"; "b"]%char ["a"%char]) /\
  HangmanGame.turnCoefficient (HangmanGame.mk "ab" 1 ["a"; "b"]%char ["a"%char])
  = Fin 1%Q /\
  turnCoefficient_spec (HangmanGame.mk "ab" 1 ["a"; "b"]%char ["a"%char])
  = Fin (1 # 2)%Q /\
  ~ num_eq (HangmanGame.turnCoefficient
              (HangmanGame.mk "ab" 1 ["a"; "b"]%char ["a"%char]))
           (turnCoefficient_spec
              (HangmanGame.mk "ab" 1 ["a"; "b"]%char ["a"%char])) /\
  HangmanGame.turnCoefficient (Server.newGame "?!") = NaN /\
  turnCoefficient_spec (Server.newGame "?!") = Fin 0%Q.
Proof.
  repeat split. intros H. vm_compute in H. discriminate H.
Qed.

(** C4: the comparison [score === NaN] is never true, so a score that is
    not a number is returned as it is.  A word without letters or digits
    and a word with 27 distinct characters both score [NaN], not 0. *)
Theorem score_returns_NaN :
  (forall a, strict_eq a NaN = false) /\
  HangmanGame.rawScore (Server.newGame "?!") = NaN /\
  HangmanGame.score (Server.newGame "?!") = NaN /\
  HangmanGame.score (Server.newGame "") = NaN /\
  HangmanGame.score (Server.newGame "abcdefghijklmnopqrstuvwxyz0") = NaN.
Proof.
  split; [exact strict_eq_NaN |]. repeat split.
Qed.

(** ** Incorrect guesses and the score *)

Lemma applyGuess_after_wrong_guess (g : HangmanGame.t) (guess : string) :
  Server.applyGuess (after_wrong_guess g) guess =
  match Server.applyGuess g guess with
  | Server.Ok g' => Server.Ok (after_wrong_guess g')
  | Server.Throw e => Server.Throw e
  end.
Proof.
  unfold Server.applyGuess, HangmanGame.won. simpl.
  destruct (CharSet.size (HangmanGame.charsGuessed g)
            =? CharSet.size (HangmanGame.charsNeeded g)); [reflexivity |].
  destruct (Server.guess_match guess); reflexivity.
Qed.

Lemma play_after_wrong_guess (guesses : list ascii) :
  forall g,
    Server.play (after_wrong_guess g) guesses =
    match Server.play g guesses with
    | Server.Ok g' => Server.Ok (after_wrong_guess g')
    | Server.Throw e => Server.Throw e
    end.
Proof.
  induction guesses as [| c rest IH]; intros g; simpl; [reflexivity |].
  rewrite applyGuess_after_wrong_guess.
  destruct (Server.applyGuess g (String c EmptyString)); [apply IH | reflexivity].
Qed.

Lemma play_app (l1 l2 : list ascii) :
  forall g,
    Server.play g (l1 ++ l2) =
    match Server.play g l1 with
    | Server.Ok g' => Server.play g' l2
    | Server.Throw e => Server.Throw e
    end.
Proof.
  induction l1 as [| c l1 IH]; intros g; simpl; [reflexivity |].
  destruct (Server.applyGuess g (String c EmptyString)); [apply IH | reflexivity].
Qed.

Lemma applyGuess_charsNeeded (g g' : HangmanGame.t) (guess : string) :
  Server.applyGuess g guess = Server.Ok g' ->
  HangmanGame.charsNeeded g' = HangmanGame.charsNeeded g.
Proof.
  intros H. apply applyGuess_inv in H. destruct H as [_ [c [_ [_ ->]]]].
  reflexivity.
Qed.

Lemma play_charsNeeded (guesses : list ascii) :
  forall g g',
    Server.play g guesses = Server.Ok g' ->
    HangmanGame.charsNeeded g' = HangmanGame.charsNeeded g.
Proof.
  induction guesses as [| c rest IH]; intros g g' H; simpl in H.
  - now injection H as <-.
  - destruct (Server.applyGuess g (String c EmptyString)) as [g1 | e] eqn:E;
      [| discriminate].
    rewrite (IH _ _ H). eapply applyGuess_charsNeeded. exact E.
Qed.

Lemma applyGuess_wrong (g g' : HangmanGame.t) (c : ascii) :
  CharSet.has (HangmanGame.charsNeeded g) c = false ->
  Server.applyGuess g (String c EmptyString) = Server.Ok g' ->
  g' = after_wrong_guess g.
Proof.
  intros Hc H. apply applyGuess_inv in H.
  destruct H as [_ [c' [Heq [_ ->]]]]. injection Heq as <-.
  now rewrite Hc.
Qed.

(** Playing with one incorrect guess ends in the state reached without it,
    one turn later. *)
Lemma play_without_wrong_guess (g0 ga : HangmanGame.t) (l1 l2 : list ascii) (x : ascii) :
  CharSet.has (HangmanGame.charsNeeded g0) x = false ->
  Server.play g0 (l1 ++ x :: l2) = Server.Ok ga ->
  exists gb, Server.play g0 (l1 ++ l2) = Server.Ok gb /\ ga = after_wrong_guess gb.
Proof.
  intros Hx H. rewrite play_app in H. rewrite play_app.
  destruct (Server.play g0 l1) as [g1 | e] eqn:E1; [| discriminate].
  simpl in H.
  destruct (Server.applyGuess g1 (String x EmptyString)) as [g2 | e] eqn:E2;
    [| discriminate].
  apply applyGuess_wrong in E2.
  - subst g2. rewrite play_after_wrong_guess in H.
    destruct (Server.play g1 l2) as [gb | e]; [| discriminate].
    exists gb. split; [reflexivity | now injection H as <-].
  - now rewrite (play_charsNeeded _ _ _ E1).
Qed.

Lemma wrong_guess_scores (g : HangmanGame.t) :
  1 <= CharSet.size (HangmanGame.charsNeeded g) <= 26 ->
  exists q,
    HangmanGame.rawScore g = Fin q /\
    num_eq (HangmanGame.rawScore (after_wrong_guess g)) (Fin (q * (1 # 2))%Q) /\
    lt (HangmanGame.score g) (HangmanGame.score (after_wrong_guess g)) = false /\
    (1 <= CharSet.size (HangmanGame.charsGuessed g) ->
     lt (HangmanGame.rawScore (after_wrong_guess g)) (HangmanGame.rawScore g) = true).
Proof.
  intros H. destruct g as [w t needed guessed]. simpl in H.
  destruct (rawScore_fin needed guessed H) as [k [Hk Hraw]].
  unfold after_wrong_guess. simpl.
  pose proof (Hraw w t) as H1. pose proof (Hraw w (S t)) as H2.
  replace (Z.of_nat (S t) - Z.of_nat (CharSet.size guessed))%Z
    with (Z.of_nat t - Z.of_nat (CharSet.size guessed) + 1)%Z in H2 by lia.
  set (z := (Z.of_nat t - Z.of_nat (CharSet.size guessed))%Z) in *.
  set (n := inject_Z (Z.of_nat (CharSet.size guessed))) in *.
  pose proof (Qpower_half_succ z) as Hpow.
  pose proof (Qpower_half_pos z) as Hpos.
  assert (Hn : (0 <= n)%Q) by apply of_nat_nonneg.
  set (p := Qpower (1 # 2) z) in *.
  set (p' := Qpower (1 # 2) (z + 1)) in *.
  assert (Hq : (0 <= k * (n / 1) * p * (1 # 10000))%Q).
  { apply Qmult_le_0_compat; [| unfold Qle; simpl; lia].
    apply Qmult_le_0_compat; [| now apply Qlt_le_weak].
    apply Qmult_le_0_compat; [now apply Qlt_le_weak |].
    unfold Qdiv. change (/ 1)%Q with 1%Q. now rewrite Qmult_1_r. }
  assert (Hhalf : (k * (n / 1) * p' * (1 # 10000)
                   == k * (n / 1) * p * (1 # 10000) * (1 # 2))%Q).
  { rewrite Hpow. ring. }
  eexists. split; [exact H1 |]. split; [| split].
  - rewrite H2. exact Hhalf.
  - rewrite (score_fin _ _ H1), (score_fin _ _ H2).
    apply lt_Fin_false. rewrite <- Zle_Qle. apply Qfloor_resp_le.
    rewrite Hhalf.
    generalize dependent (k * (n / 1) * p * (1 # 10000))%Q. intros q; intros.
    clear - Hq. lra.
  - intros Hg. rewrite H1, H2. apply lt_Fin. rewrite Hhalf.
    assert (Hn1 : (0 < n / 1)%Q).
    { unfold Qdiv. change (/ 1)%Q with 1%Q. rewrite Qmult_1_r.
      subst n. now apply of_nat_pos. }
    assert (Hq' : (0 < k * (n / 1) * p * (1 # 10000))%Q).
    { apply Qmult_lt_0_compat; [| reflexivity].
      apply Qmult_lt_0_compat; [| assumption].
      apply Qmult_lt_0_compat; assumption. }
    generalize dependent (k * (n / 1) * p * (1 # 10000))%Q. intros q; intros.
    clear - Hq'. lra.
Qed.

Lemma is_negative_false (q : Q) : (0 < q)%Q -> is_negative q = false.
Proof.
  unfold is_negative, Qlt. simpl. intros H. apply Z.ltb_ge. lia.
Qed.

(** Outside the table the raw score is not a number. *)
Lemma rawScore_large (needed guessed : CharSet.t) (w : string) (t : nat) :
  26 < CharSet.size needed ->
  HangmanGame.rawScore (HangmanGame.mk w t needed guessed) = NaN.
Proof.
  intros H. unfold HangmanGame.rawScore, HangmanGame.bruteforceDifficulty.
  cbn [HangmanGame.charsNeeded].
  replace (nth_error charnum_difficulty (CharSet.size needed)) with (@None Q).
  - reflexivity.
  - symmetry. apply nth_error_None. simpl. lia.
Qed.

(** Without a needed character the raw score is [NaN] or [Infinity]. *)
Lemma rawScore_empty (guessed : CharSet.t) (w : string) (t : nat) :
  HangmanGame.rawScore (HangmanGame.mk w t [] guessed)
  = match guessed with [] => NaN | _ :: _ => Infinity false end.
Proof.
  unfold HangmanGame.rawScore, HangmanGame.bruteforceDifficulty,
    HangmanGame.avrageLetterDifficulty, HangmanGame.turnCoefficient,
    HangmanGame.badGuessPenalty.
  cbn [HangmanGame.charsNeeded HangmanGame.charsGuessed HangmanGame.turns].
  destruct guessed as [| c guessed]; [reflexivity |].
  change (CharSet.size (c :: guessed)) with (S (List.length guessed)).
  set (z := (Z.of_nat t - Z.of_nat (S (List.length guessed)))%Z).
  unfold pow_half.
  pose proof (Qpower_half_pos z) as Hp.
  simpl. rewrite (is_zero_false _ Hp), (is_negative_false _ Hp). reflexivity.
Qed.

Lemma wrong_guess_scores_any (g : HangmanGame.t) :
  num_eq (HangmanGame.rawScore (after_wrong_guess g))
         (mul (HangmanGame.rawScore g) (Fin (1 # 2)%Q)) /\
  lt (HangmanGame.score g) (HangmanGame.score (after_wrong_guess g)) = false.
Proof.
  destruct (Nat.eq_dec (CharSet.size (HangmanGame.charsNeeded g)) 0) as [H0 | H0].
  - destruct g as [w t needed guessed]. simpl in H0.
    destruct needed; [| discriminate].
    unfold after_wrong_guess, HangmanGame.score. simpl.
    rewrite !rawScore_empty. destruct guessed; split; reflexivity.
  - destruct (le_gt_dec (CharSet.size (HangmanGame.charsNeeded g)) 26) as [H26 | H26].
    + destruct (wrong_guess_scores g) as [q [Hq [Hhalf [Hle _]]]]; [lia |].
      rewrite Hq. split; assumption.
    + destruct g as [w t needed guessed]. simpl in H26.
      unfold after_wrong_guess, HangmanGame.score. simpl.
      rewrite !rawScore_large by exact H26. split; reflexivity.
Qed.

Lemma score_Fin_table_domain (g : HangmanGame.t) (q : Q) :
  HangmanGame.score g = Fin q ->
  1 <= CharSet.size (HangmanGame.charsNeeded g) <= 26.
Proof.
  intros H.
  destruct (Nat.eq_dec (CharSet.size (HangmanGame.charsNeeded g)) 0) as [H0 | H0].
  - exfalso. destruct g as [w t needed guessed]. simpl in H0.
    destruct needed; [| discriminate].
    unfold HangmanGame.score in H. rewrite rawScore_empty in H.
    destruct guessed; discriminate H.
  - destruct (le_gt_dec (CharSet.size (HangmanGame.charsNeeded g)) 26) as [H26 | H26];
      [lia | exfalso].
    destruct g as [w t needed guessed]. simpl in H26.
    unfold HangmanGame.score in H. rewrite rawScore_large in H by exact H26.
    discriminate H.
Qed.

Lemma round_half_strict (q q' : Q) :
  (q' == q * (1 # 2))%Q ->
  (2 <= Qfloor (q + (1 # 2)))%Z ->
  (Qfloor (q' + (1 # 2)) < Qfloor (q + (1 # 2)))%Z.
Proof.
  intros Hq' Hz.
  rewrite Zlt_Qlt.
  pose proof (Qfloor_le (q' + (1 # 2))) as Hlo.
  pose proof (Qlt_floor (q + (1 # 2))) as Hhi.
  rewrite inject_Z_plus in Hhi.
  rewrite Zle_Qle in Hz.
  change (inject_Z 1) with 1%Q in Hhi. change (inject_Z 2) with 2%Q in Hz.
  generalize dependent (inject_Z (Qfloor (q + (1 # 2)))). intros z Hhi Hz.
  generalize dependent (inject_Z (Qfloor (q' + (1 # 2)))). intros z' Hlo.
  lra.
Qed.

(** A score of at least 2 is strictly lowered by one more incorrect
    guess. *)
Lemma wrong_guess_strict (g : HangmanGame.t) (z : Z) :
  HangmanGame.score g = Fin (inject_Z z) -> (2 <= z)%Z ->
  lt (HangmanGame.score (after_wrong_guess g)) (HangmanGame.score g) = true.
Proof.
  intros Hscore Hz.
  pose proof (score_Fin_table_domain g _ Hscore) as Hsize.
  destruct (wrong_guess_scores g Hsize) as [q [Hq [Hhalf _]]].
  destruct (HangmanGame.rawScore (after_wrong_guess g)) as [| | q'] eqn:Hq';
    try contradiction.
  simpl in Hhalf.
  rewrite (score_fin _ _ Hq) in Hscore |- *. rewrite (score_fin _ _ Hq').
  assert (Hz' : Qfloor (q + (1 # 2)) = z) by (injection Hscore as H; exact H).
  apply lt_Fin. rewrite <- Zlt_Qlt.
  apply round_half_strict; [exact Hhalf | lia].
Qed.

(** C8, as stated, fails: the word ["a"] won at once and won after the
    incorrect guess ["x"] both score 0, so the score with the incorrect
    guess is not strictly lower. *)
Lemma wrong_guess_same_rounded_score :
  Server.play (Server.newGame "a") ["a"%char]
  = Server.Ok (HangmanGame.mk "a" 1 ["a"%char] ["a"%char]) /\
  Server.play (Server.newGame "a") ["x"; "a"]%char
  = Server.Ok (HangmanGame.mk "a" 2 ["a"%char] ["a"%char]) /\
  HangmanGame.won (HangmanGame.mk "a" 1 ["a"%char] ["a"%char]) = true /\
  HangmanGame.won (HangmanGame.mk "a" 2 ["a"%char] ["a"%char]) = true /\
  HangmanGame.score (HangmanGame.mk "a" 1 ["a"%char] ["a"%char]) = Fin 0%Q /\
  HangmanGame.score (HangmanGame.mk "a" 2 ["a"%char] ["a"%char]) = Fin 0%Q /\
  lt (HangmanGame.score (HangmanGame.mk "a" 2 ["a"%char] ["a"%char]))
     (HangmanGame.score (HangmanGame.mk "a" 1 ["a"%char] ["a"%char])) = false.
Proof. repeat split. Qed.

(** C8 (amended): a game played with one incorrect guess ends in the state
    of the same game played without it, one turn later.  Its score is never
    higher, and it is strictly lower whenever the score without the
    incorrect guess is at least 2 (scores of 0 and 1 can stay as they are,
    by rounding).  While fewer than 1000 guesses were incorrect, the raw
    score is the other raw score times 0.5, strictly lower once the game is
    won for a word with 1 to 26 needed characters. *)
Theorem wrong_guess_halves_raw_score
        (g0 ga : HangmanGame.t) (l1 l2 : list ascii) (x : ascii) :
  CharSet.has (HangmanGame.charsNeeded g0) x = false ->
  Server.play g0 (l1 ++ x :: l2) = Server.Ok ga ->
  exists gb,
    Server.play g0 (l1 ++ l2) = Server.Ok gb /\
    ga = after_wrong_guess gb /\
    lt (HangmanGame.score gb) (HangmanGame.score ga) = false /\
    (forall z, HangmanGame.score gb = Fin (inject_Z z) -> (2 <= z)%Z ->
               lt (HangmanGame.score ga) (HangmanGame.score gb) = true) /\
    (HangmanGame.turns gb < 1000 + CharSet.size (HangmanGame.charsGuessed gb) ->
     num_eq (HangmanGame.rawScore ga)
            (mul (HangmanGame.rawScore gb) (Fin (1 # 2)%Q)) /\
     (HangmanGame.won ga = true ->
      1 <= CharSet.size (HangmanGame.charsNeeded g0) <= 26 ->
      lt (HangmanGame.rawScore ga) (HangmanGame.rawScore gb) = true)).
Proof.
  intros Hx Hplay.
  destruct (play_without_wrong_guess g0 ga l1 l2 x Hx Hplay) as [gb [Hgb ->]].
  exists gb. split; [exact Hgb |]. split; [reflexivity |].
  destruct (wrong_guess_scores_any gb) as [Hhalf Hle].
  split; [exact Hle |].
  split; [intros z; apply wrong_guess_strict |].
  intros _. split; [exact Hhalf |].
  intros Hwon Hsize.
  assert (Hneeded : HangmanGame.charsNeeded gb = HangmanGame.charsNeeded g0)
    by (eapply play_charsNeeded; exact Hgb).
  rewrite <- Hneeded in Hsize.
  destruct (wrong_guess_scores gb Hsize) as [_ [_ [_ [_ Hlt]]]].
  apply Hlt.
  unfold HangmanGame.won in Hwon. simpl in Hwon.
  apply Nat.eqb_eq in Hwon. lia.
Qed.

Lemma wrong_guess_halves_raw_score_witness :
  lt (HangmanGame.score (HangmanGame.mk "ax" 3 ["a"; "x"]%char ["a"; "x"]%char))
     (HangmanGame.score (HangmanGame.mk "ax" 2 ["a"; "x"]%char ["a"; "x"]%char))
  = true /\
  num_eq (HangmanGame.rawScore (HangmanGame.mk "ax" 3 ["a"; "x"]%char ["a"; "x"]%char))
         (mul (HangmanGame.rawScore (HangmanGame.mk "ax" 2 ["a"; "x"]%char ["a"; "x"]%char))
              (Fin (1 # 2)%Q)) /\
  lt (HangmanGame.rawScore (HangmanGame.mk "ax" 3 ["a"; "x"]%char ["a"; "x"]%char))
     (HangmanGame.rawScore (HangmanGame.mk "ax" 2 ["a"; "x"]%char ["a"; "x"]%char))
  = true.
Proof.
  destruct (wrong_guess_halves_raw_score
              (Server.newGame "ax")
              (HangmanGame.mk "ax" 3 ["a"; "x"]%char ["a"; "x"]%char)
              [] ["a"; "x"]%char "n"%char eq_refl eq_refl)
    as [gb [Hgb [_ [_ [Hstrict Hraw]]]]].
  simpl in Hgb. injection Hgb as <-.
  split; [apply (Hstrict 265%Z); [reflexivity | lia] |].
  destruct Hraw as [Hhalf Hlt]; [simpl; lia |].
  split; [exact Hhalf |].
  apply Hlt; [reflexivity | simpl; lia].
Defined.

Example score_ax_clean :
  HangmanGame.score (HangmanGame.mk "ax" 2 ["a"; "x"]%char ["a"; "x"]%char) = Fin 265%Q /\
  HangmanGame.score (HangmanGame.mk "ax" 3 ["a"; "x"]%char ["a"; "x"]%char) = Fin 133%Q.
Proof. split; reflexivity. Qed.

(** ** The session token *)

Lemma well_formed_constructor (g : HangmanGame.t) :
  well_formed g ->
  HangmanGame.constructor (HangmanGame.word g) (HangmanGame.charsGuessed g)
                          (HangmanGame.turns g) = g.
Proof.
  intros [Hneeded Hnd]. destruct g as [w t needed guessed]. simpl in *.
  unfold HangmanGame.constructor. rewrite <- Hneeded.
  now rewrite (of_list_id guessed Hnd).
Qed.

Lemma well_formed_applyGuess (g g' : HangmanGame.t) (guess : string) :
  well_formed g -> Server.applyGuess g guess = Server.Ok g' -> well_formed g'.
Proof.
  intros [Hneeded Hnd] H. apply applyGuess_inv in H.
  destruct H as [_ [c [_ [_ ->]]]]. split; simpl.
  - exact Hneeded.
  - destruct (CharSet.has (HangmanGame.charsNeeded g) c);
      [now apply NoDup_add | assumption].
Qed.

Lemma well_formed_reachable (w : string) (g : HangmanGame.t) :
  Server.reachable w g -> well_formed g.
Proof.
  intros H. induction H as [| g guess g' _ IH Hstep].
  - split; simpl; [reflexivity | constructor].
  - eapply well_formed_applyGuess; eassumption.
Qed.

Lemma all_single_chars_map (l : list ascii) :
  HangmanGame.all_single_chars (map (fun c => JString (String c EmptyString)) l)
  = Some l.
Proof.
  induction l as [| c l IH]; simpl; [reflexivity |]. now rewrite IH.
Qed.

Lemma plain_platform_laws : PlatformLaws plain_platform tt.
Proof.
  constructor; simpl; intros; congruence.
Qed.

Section Token.

Context {P : Platform} (privateKey : Key) (laws : PlatformLaws P privateKey).

Lemma decrypt_payload (g : HangmanGame.t) (seed : Seed) (cipher : Buffer) :
  well_formed g ->
  publicEncrypt privateKey seed
                (Buffer_from (JSON_stringify (HangmanGame.payload g))) = Some cipher ->
  HangmanGame.decrypt (toString_base64 cipher) privateKey = Some g.
Proof.
  intros Hwf Henc. unfold HangmanGame.decrypt.
  rewrite Buffer_base64.
  rewrite (privateDecrypt_publicEncrypt _ _ _ Henc).
  unfold HangmanGame.payload.
  rewrite Buffer_toString_from, JSON_parse_stringify.
  unfold game_json, CharSet.to_list. simpl.
  rewrite all_single_chars_map.
  now rewrite well_formed_constructor.
Qed.

(** C2: for every game reached from a new game by accepted guesses,
    whenever [publicEncrypt] accepts the serialized game under the server's
    key, [serializeState] returns a state with the token made of the
    cipher, and that token decrypts to the game: same word, same guessed
    characters, same turns and the needed characters derived again from the
    word. *)
Theorem token_round_trip
        (w : string) (g : HangmanGame.t) (seed : Seed) (cipher : Buffer) :
  Server.reachable w g ->
  publicEncrypt privateKey seed
                (Buffer_from (JSON_stringify (HangmanGame.payload g))) = Some cipher ->
  HangmanGame.serializeState g privateKey seed
  = Some (@HangmanGame.mkState P (toString_base64 cipher) (HangmanGame.hiddenWord g)
            (HangmanGame.won g) (HangmanGame.score g) (HangmanGame.turns g)) /\
  HangmanGame.decrypt (toString_base64 cipher) privateKey = Some g /\
  Server.decryptGame (toString_base64 cipher) privateKey = Server.Ok g.
Proof.
  intros Hreach Henc. split.
  - unfold HangmanGame.serializeState. now rewrite Henc.
  - assert (Hdec : HangmanGame.decrypt (toString_base64 cipher) privateKey = Some g).
    { apply decrypt_payload with (seed := seed); [| exact Henc].
      eapply well_formed_reachable. exact Hreach. }
    split; [exact Hdec |].
    unfold Server.decryptGame. now rewrite Hdec.
Qed.

(** The handler works on the game the token was made from: the server
    keeps nothing between two requests. *)
Lemma post_api_game_token
      (w : string) (g : HangmanGame.t) (seed seed' : Seed)
      (st : HangmanGame.state) (guess : string) :
  Server.reachable w g ->
  HangmanGame.serializeState g privateKey seed = Some st ->
  Server.post_api_game guess (HangmanGame.state_game st) privateKey seed' =
  match Server.applyGuess g guess with
  | Server.Ok g' => Server.send g' privateKey seed'
  | Server.Throw e => Server.Throw e
  end.
Proof.
  intros Hreach Hser. unfold HangmanGame.serializeState in Hser.
  destruct (publicEncrypt privateKey seed
              (Buffer_from (JSON_stringify (HangmanGame.payload g))))
    as [cipher |] eqn:Henc; [| discriminate].
  injection Hser as <-. simpl.
  unfold Server.post_api_game, Server.decryptGame.
  rewrite (decrypt_payload g seed cipher (well_formed_reachable w g Hreach) Henc).
  reflexivity.
Qed.

End Token.

Lemma token_round_trip_witness :
  HangmanGame.serializeState (P := plain_platform)
    (HangmanGame.mk "ab" 1 ["a"; "b"]%char ["b"%char]) tt tt
  = Some (@HangmanGame.mkState plain_platform
            (HangmanGame.payload (HangmanGame.mk "ab" 1 ["a"; "b"]%char ["b"%char]))
            "_b" false (Fin 13%Q) 1) /\
  HangmanGame.decrypt (P := plain_platform)
    (HangmanGame.payload (HangmanGame.mk "ab" 1 ["a"; "b"]%char ["b"%char])) tt
  = Some (HangmanGame.mk "ab" 1 ["a"; "b"]%char ["b"%char]) /\
  Server.decryptGame (P := plain_platform)
    (HangmanGame.payload (HangmanGame.mk "ab" 1 ["a"; "b"]%char ["b"%char])) tt
  = Server.Ok (HangmanGame.mk "ab" 1 ["a"; "b"]%char ["b"%char]).
Proof.
  apply (token_round_trip (P := plain_platform) tt plain_platform_laws
           "ab"%string (HangmanGame.mk "ab" 1 ["a"; "b"]%char ["b"%char]) tt
           (HangmanGame.payload (HangmanGame.mk "ab" 1 ["a"; "b"]%char ["b"%char]))).
  - apply Server.reachable_guess with (g := Server.newGame "ab") (guess := "b"%string).
    + apply Server.reachable_new.
    + reflexivity.
  - reflexivity.
Defined.

(** ** The order of scores *)

Lemma lt_asym (a b : number) : lt a b = true -> lt b a = false.
Proof.
  destruct a as [| s | p], b as [| t | q]; simpl; try congruence;
    try (destruct s, t; simpl; congruence);
    try (destruct s; simpl; congruence);
    try (destruct t; simpl; congruence).
  intros H. apply Z.ltb_lt in H. apply Z.ltb_ge. lia.
Qed.

Lemma lt_below_trans (x y e : number) :
  y <> NaN -> lt x y = false -> lt x e = true -> lt y e = true.
Proof.
  destruct x as [| sx | px], y as [| sy | py], e as [| se | pe];
    simpl; intros Hy H1 H2; try congruence;
    try (destruct sx, sy, se; simpl in *; congruence);
    try (destruct sx, sy; simpl in *; congruence);
    try (destruct sx, se; simpl in *; congruence);
    try (destruct sy, se; simpl in *; congruence);
    try (destruct sx; simpl in *; congruence);
    try (destruct sy; simpl in *; congruence);
    try (destruct se; simpl in *; congruence).
  apply Z.ltb_ge in H1. apply Z.ltb_lt in H2. apply Z.ltb_lt.
  change (py <= px)%Q in H1. change (px < pe)%Q in H2. change (py < pe)%Q.
  eapply Qle_lt_trans; eassumption.
Qed.

(** ** The insertion index *)

Section Scan.

Import Highscores.

Variable score0 : number.

Lemma scan_le (value : list entry) (idx : nat) : scan value score0 idx <= idx.
Proof.
  induction idx as [| i IH]; simpl; [lia |].
  destruct (nth_error value i) as [e |]; [| lia].
  destruct (lt (score e) score0); lia.
Qed.

Lemma scan_app (l r : list entry) (idx : nat) :
  idx <= List.length l -> scan (l ++ r) score0 idx = scan l score0 idx.
Proof.
  induction idx as [| i IH]; intros H; simpl; [reflexivity |].
  rewrite nth_error_app1 by lia.
  destruct (nth_error l i) as [e |]; [| reflexivity].
  destruct (lt (score e) score0); [apply IH; lia | reflexivity].
Qed.

Lemma insertion_index_snoc (l : list entry) (x : entry) :
  insertion_index (l ++ [x]) score0 =
  if lt (score x) score0 then insertion_index l score0 else S (List.length l).
Proof.
  unfold insertion_index. rewrite length_app. simpl.
  replace (List.length l + 1) with (S (List.length l)) by lia. simpl.
  rewrite nth_error_app2 by lia. rewrite Nat.sub_diag. simpl.
  destruct (lt (score x) score0); [| reflexivity].
  apply scan_app. lia.
Qed.

Lemma insertion_index_le (value : list entry) :
  insertion_index value score0 <= List.length value.
Proof. apply scan_le. Qed.

(** Every entry from the index on is lower, and the entry just before the
    index is not. *)
Lemma insertion_index_spec (value : list entry) :
  Forall (lower score0) (skipn (insertion_index value score0) value) /\
  (insertion_index value score0 = 0 \/
   exists x, nth_error value (insertion_index value score0 - 1) = Some x /\
             lt (score x) score0 = false).
Proof.
  induction value as [| x l IH] using rev_ind.
  - split; [constructor | now left].
  - rewrite insertion_index_snoc.
    destruct (lt (score x) score0) eqn:E.
    + destruct IH as [IH1 IH2].
      pose proof (insertion_index_le l) as Hle.
      split.
      * rewrite skipn_app.
        replace (insertion_index l score0 - List.length l) with 0 by lia.
        simpl. apply Forall_app. split; [assumption |].
        constructor; [exact E | constructor].
      * destruct IH2 as [H0 | [y [Hy Hlt]]]; [now left | right].
        exists y. split; [| assumption].
        rewrite nth_error_app1; [assumption |].
        apply nth_error_Some. congruence.
    + split.
      * rewrite skipn_all2; [constructor |]. rewrite length_app. simpl. lia.
      * right. exists x. split; [| assumption].
        simpl. rewrite Nat.sub_0_r.
        rewrite nth_error_app2 by lia. now rewrite Nat.sub_diag.
Qed.

(** An entry that is not lower stands before the index. *)
Lemma insertion_index_after (value : list entry) (i : nat) (x : entry) :
  nth_error value i = Some x -> lt (score x) score0 = false ->
  i < insertion_index value score0.
Proof.
  intros Hx Hlt.
  destruct (Nat.lt_ge_cases i (insertion_index value score0)) as [H | H];
    [assumption | exfalso].
  destruct (insertion_index_spec value) as [Hall _].
  assert (Hin : In x (skipn (insertion_index value score0) value)).
  { apply nth_error_In with (n := i - insertion_index value score0).
    rewrite nth_error_skipn.
    replace (insertion_index value score0 + (i - insertion_index value score0))
      with i by lia.
    exact Hx. }
  pose proof (proj1 (Forall_forall _ _) Hall x Hin) as Hlow.
  unfold lower in Hlow. congruence.
Qed.

Lemma insertion_index_lower (l1 l2 : list entry) :
  Forall (lower score0) l2 ->
  insertion_index (l1 ++ l2) score0 = insertion_index l1 score0.
Proof.
  induction l2 as [| x l2 IH] using rev_ind; intros H.
  - now rewrite app_nil_r.
  - apply Forall_app in H. destruct H as [H2 Hx].
    rewrite app_assoc, insertion_index_snoc.
    inversion Hx as [| ? ? Hlow _]. unfold lower in Hlow. rewrite Hlow.
    now apply IH.
Qed.

Lemma insertion_index_not_lower (l : list entry) :
  Forall (fun x => lt (score x) score0 = false) l ->
  insertion_index l score0 = List.length l.
Proof.
  destruct l as [| x l] using rev_ind; intros H; [reflexivity |].
  apply Forall_app in H. destruct H as [_ Hx].
  inversion Hx as [| ? ? Hlt _].
  rewrite insertion_index_snoc, Hlt, length_app. simpl. lia.
Qed.

Lemma insertion_index_split (l1 l2 : list entry) :
  Forall (fun x => lt (score x) score0 = false) l1 ->
  Forall (lower score0) l2 ->
  insertion_index (l1 ++ l2) score0 = List.length l1.
Proof.
  intros H1 H2. rewrite (insertion_index_lower _ _ H2).
  now apply insertion_index_not_lower.
Qed.

End Scan.

(** ** [splice] and [add] *)

Lemma splice_insert {A : Type} (l : list A) (idx : nat) (e : A) :
  idx <= List.length l ->
  Highscores.splice l idx 0 [e] = firstn idx l ++ e :: skipn idx l.
Proof.
  intros H. unfold Highscores.splice.
  replace (Nat.min idx (List.length l)) with idx by lia.
  replace (Z.to_nat (Z.min (Z.max 0 0) (Z.of_nat (List.length l - idx)))) with 0 by lia.
  now rewrite Nat.add_0_r.
Qed.

Lemma splice_limit {A : Type} (l : list A) (cap : nat) :
  Highscores.splice l cap (Z.of_nat (List.length l) - Z.of_nat cap) [] = firstn cap l.
Proof.
  unfold Highscores.splice. simpl.
  destruct (Nat.le_gt_cases cap (List.length l)) as [H | H].
  - replace (Nat.min cap (List.length l)) with cap by lia.
    rewrite skipn_all2; [apply app_nil_r | lia].
  - replace (Nat.min cap (List.length l)) with (List.length l) by lia.
    rewrite skipn_all2 by lia.
    rewrite firstn_all, firstn_all2 by lia. apply app_nil_r.
Qed.

Lemma value_add (h : Highscores.t) (e : Highscores.entry) :
  Highscores.value (Highscores.add h e) =
  if Highscores.insertion_index (Highscores.value h) (Highscores.score e)
     <? Highscores._max h
  then firstn (Highscores._max h)
         (firstn (Highscores.insertion_index (Highscores.value h) (Highscores.score e))
                 (Highscores.value h)
          ++ e :: skipn (Highscores.insertion_index (Highscores.value h)
                                                   (Highscores.score e))
                        (Highscores.value h))
  else Highscores.value h.
Proof.
  unfold Highscores.add.
  destruct (Highscores.insertion_index (Highscores.value h) (Highscores.score e)
            <? Highscores._max h); [| reflexivity].
  simpl. rewrite splice_limit, splice_insert by apply insertion_index_le.
  now destruct e.
Qed.

Lemma max_add (h : Highscores.t) (e : Highscores.entry) :
  Highscores._max (Highscores.add h e) = Highscores._max h.
Proof.
  unfold Highscores.add.
  now destruct (Highscores.insertion_index (Highscores.value h) (Highscores.score e)
                <? Highscores._max h).
Qed.

Lemma In_firstn {A : Type} (n : nat) (l : list A) (x : A) :
  In x (firstn n l) -> In x l.
Proof.
  intros H. rewrite <- (firstn_skipn n l). apply in_or_app. now left.
Qed.

(** ** Stable descending insertion *)

Section Ranking.

Import Highscores.

Lemma insert_desc_perm (e : entry) (l : list entry) :
  Permutation (insert_desc e l) (e :: l).
Proof.
  induction l as [| x l IH]; simpl; [reflexivity |].
  destruct (lt (score x) (score e)); [reflexivity |].
  rewrite IH. apply perm_swap.
Qed.

Lemma insert_desc_scored (e : entry) (l : list entry) :
  scored e -> Forall scored l -> Forall scored (insert_desc e l).
Proof.
  intros He Hl. eapply Permutation_Forall.
  - apply Permutation_sym. apply insert_desc_perm.
  - now constructor.
Qed.

Lemma insert_desc_sorted (e : entry) (l : list entry) :
  Forall scored l -> StronglySorted not_below l ->
  StronglySorted not_below (insert_desc e l).
Proof.
  intros Hsc Hs. induction Hs as [| x l Hs IH Hx]; simpl.
  - repeat constructor.
  - inversion Hsc as [| ? ? Hxs Hls]; subst.
    destruct (lt (score x) (score e)) eqn:E.
    + constructor; [now constructor |].
      constructor; [now apply lt_asym |].
      apply Forall_forall. intros y Hy. unfold not_below.
      apply lt_asym. eapply lt_below_trans.
      * exact (proj1 (Forall_forall _ _) Hls y Hy).
      * exact (proj1 (Forall_forall _ _) Hx y Hy).
      * exact E.
    + constructor; [now apply IH |].
      eapply Permutation_Forall.
      * apply Permutation_sym. apply insert_desc_perm.
      * constructor; assumption.
Qed.

Lemma sorted_split (e : entry) (l : list entry) :
  Forall scored l -> StronglySorted not_below l ->
  exists l1 l2,
    l = l1 ++ l2 /\
    Forall (fun x => lt (score x) (score e) = false) l1 /\
    Forall (lower (score e)) l2.
Proof.
  intros Hsc Hs. induction Hs as [| x l Hs IH Hx].
  - exists [], []. repeat split; constructor.
  - inversion Hsc as [| ? ? Hxs Hls]; subst.
    destruct (lt (score x) (score e)) eqn:E.
    + exists [], (x :: l). repeat split; [constructor |].
      constructor; [exact E |].
      apply Forall_forall. intros y Hy. unfold lower.
      eapply lt_below_trans.
      * exact (proj1 (Forall_forall _ _) Hls y Hy).
      * exact (proj1 (Forall_forall _ _) Hx y Hy).
      * exact E.
    + destruct (IH Hls) as [l1 [l2 [-> [H1 H2]]]].
      exists (x :: l1), l2. repeat split; [| assumption].
      now constructor.
Qed.

Lemma insert_desc_split (e : entry) (l1 l2 : list entry) :
  Forall (fun x => lt (score x) (score e) = false) l1 ->
  Forall (lower (score e)) l2 ->
  insert_desc e (l1 ++ l2) = l1 ++ e :: l2.
Proof.
  intros H1 H2. induction H1 as [| x l1 Hx _ IH]; simpl.
  - destruct H2 as [| y l2 Hy _]; [reflexivity |].
    simpl. unfold lower in Hy. now rewrite Hy.
  - now rewrite Hx, IH.
Qed.

(** On a ranked table cut to its capacity, [add] is stable descending
    insertion followed by the cut. *)
Lemma add_ranked (h : t) (e : entry) (ranking : list entry) :
  Forall scored ranking -> StronglySorted not_below ranking ->
  value h = firstn (_max h) ranking ->
  value (add h e) = firstn (_max h) (insert_desc e ranking).
Proof.
  intros Hsc Hs Hv.
  destruct (sorted_split e ranking Hsc Hs) as [l1 [l2 [-> [H1 H2]]]].
  rewrite (insert_desc_split e l1 l2 H1 H2).
  rewrite value_add, Hv. set (cap := _max h).
  rewrite firstn_app.
  destruct (Nat.le_gt_cases cap (List.length l1)) as [Hcap | Hcap].
  - replace (cap - List.length l1) with 0 by lia. simpl. rewrite app_nil_r.
    rewrite insertion_index_not_lower.
    + rewrite length_firstn.
      replace (Nat.min cap (List.length l1) <? cap) with false
        by (symmetry; apply Nat.ltb_ge; lia).
      rewrite firstn_app.
      replace (cap - List.length l1) with 0 by lia.
      simpl. now rewrite app_nil_r.
    + apply Forall_forall. intros x Hx.
      apply (proj1 (Forall_forall _ _) H1). eapply In_firstn. exact Hx.
  - rewrite (firstn_all2 (n := cap) l1) by lia.
    rewrite insertion_index_split.
    + replace (List.length l1 <? cap) with true
        by (symmetry; apply Nat.ltb_lt; lia).
      set (c := cap - List.length l1).
      assert (E1 : firstn (List.length l1) (l1 ++ firstn c l2) = l1).
      { rewrite firstn_app, firstn_all, Nat.sub_diag. simpl. apply app_nil_r. }
      assert (E2 : skipn (List.length l1) (l1 ++ firstn c l2) = firstn c l2).
      { rewrite skipn_app, skipn_all, Nat.sub_diag. reflexivity. }
      rewrite E1, E2, !firstn_app. fold c. f_equal.
      destruct c as [| c'] eqn:Ec; [subst c; lia |].
      rewrite !firstn_cons. f_equal. rewrite firstn_firstn. f_equal. lia.
    + assumption.
    + apply Forall_forall. intros x Hx.
      apply (proj1 (Forall_forall _ _) H2). eapply In_firstn. exact Hx.
Qed.

End Ranking.

(** ** The table after a sequence of submissions *)

Section Leaderboard.

Import Highscores.

Lemma fold_insert_desc_perm (es acc : list entry) :
  Permutation (fold_left (fun l e => insert_desc e l) es acc) (acc ++ es).
Proof.
  revert acc. induction es as [| e es IH]; intros acc; simpl.
  - now rewrite app_nil_r.
  - rewrite IH, insert_desc_perm. apply Permutation_middle.
Qed.

Lemma fold_insert_desc_sorted (es acc : list entry) :
  Forall scored es -> Forall scored acc -> StronglySorted not_below acc ->
  StronglySorted not_below (fold_left (fun l e => insert_desc e l) es acc).
Proof.
  revert acc. induction es as [| e es IH]; intros acc Hes Hacc Hs; simpl.
  - assumption.
  - inversion Hes as [| ? ? He Hes']; subst.
    apply IH; [assumption | now apply insert_desc_scored | now apply insert_desc_sorted].
Qed.

Lemma fold_add_ranked (es : list entry) :
  forall (h : t) (ranking : list entry),
    Forall scored es -> Forall scored ranking ->
    StronglySorted not_below ranking ->
    value h = firstn (_max h) ranking ->
    value (fold_left add es h)
    = firstn (_max h) (fold_left (fun l e => insert_desc e l) es ranking).
Proof.
  induction es as [| e es IH]; intros h ranking Hes Hr Hs Hv; simpl.
  - assumption.
  - inversion Hes as [| ? ? He Hes']; subst.
    rewrite <- (max_add h e).
    apply IH.
    + assumption.
    + now apply insert_desc_scored.
    + now apply insert_desc_sorted.
    + rewrite max_add. now apply add_ranked.
Qed.

Lemma add_dropped (h : t) (e : entry) :
  _max h <= insertion_index (value h) (score e) -> add h e = h.
Proof.
  intros H. unfold add.
  replace (insertion_index (value h) (score e) <? _max h) with false
    by (symmetry; apply Nat.ltb_ge; exact H).
  reflexivity.
Qed.

End Leaderboard.

(** C5: [add] puts the new entry after every entry whose score is not
    lower (all entries from the index on are lower), leaves the store as it
    is when the index reaches the capacity, and otherwise inserts at the
    index and cuts the table to the capacity; submissions with scores to an
    empty store leave the first [capacity] entries of their stable
    descending ranking, which is sorted and holds every submission. *)
Theorem add_stable_descending :
  (forall h e,
      Highscores.insertion_index (Highscores.value h) (Highscores.score e)
      <= List.length (Highscores.value h) /\
      (forall i x,
          nth_error (Highscores.value h) i = Some x ->
          lt (Highscores.score x) (Highscores.score e) = false ->
          i < Highscores.insertion_index (Highscores.value h) (Highscores.score e)) /\
      Forall (Highscores.lower (Highscores.score e))
             (skipn (Highscores.insertion_index (Highscores.value h) (Highscores.score e))
                    (Highscores.value h)) /\
      (Highscores._max h
       <= Highscores.insertion_index (Highscores.value h) (Highscores.score e) ->
       Highscores.add h e = h) /\
      (Highscores.insertion_index (Highscores.value h) (Highscores.score e)
       < Highscores._max h ->
       Highscores.value (Highscores.add h e)
       = firstn (Highscores._max h)
           (firstn (Highscores.insertion_index (Highscores.value h) (Highscores.score e))
                   (Highscores.value h)
            ++ e :: skipn (Highscores.insertion_index (Highscores.value h)
                                                     (Highscores.score e))
                          (Highscores.value h)))) /\
  (forall capacity es,
      Forall Highscores.scored es ->
      Highscores.value (fold_left Highscores.add es (Highscores.constructor [] capacity))
      = firstn capacity (Highscores.sort_desc es) /\
      StronglySorted Highscores.not_below (Highscores.sort_desc es) /\
      Permutation (Highscores.sort_desc es) es).
Proof.
  split.
  - intros h e. split; [apply insertion_index_le |].
    split; [intros i x; apply insertion_index_after |].
    split; [apply insertion_index_spec |].
    split; [apply add_dropped |].
    intros H. rewrite value_add.
    apply Nat.ltb_lt in H. now rewrite H.
  - intros capacity es Hes. split; [| split].
    + unfold Highscores.sort_desc.
      apply (fold_add_ranked es (Highscores.constructor [] capacity) []).
      * assumption.
      * constructor.
      * constructor.
      * simpl. now rewrite firstn_nil.
    + apply fold_insert_desc_sorted; [assumption | constructor | constructor].
    + apply (fold_insert_desc_perm es []).
Qed.

Lemma add_stable_descending_witness :
  Highscores.add full_table (submission 3) = full_table /\
  Highscores.value (Highscores.add full_table (submission 8))
  = map submission [9; 8; 8; 7; 5]%Z /\
  (Highscores.value
     (fold_left Highscores.add seven_submissions (Highscores.constructor [] 5))
   = firstn 5 (Highscores.sort_desc seven_submissions) /\
   StronglySorted Highscores.not_below (Highscores.sort_desc seven_submissions) /\
   Permutation (Highscores.sort_desc seven_submissions) seven_submissions).
Proof.
  split; [| split].
  - apply (proj1 (proj2 (proj2 (proj2 (proj1 add_stable_descending
                                          full_table (submission 3)))))).
    vm_compute. lia.
  - apply (proj2 (proj2 (proj2 (proj2 (proj1 add_stable_descending
                                          full_table (submission 8)))))).
    vm_compute. lia.
  - apply (proj2 add_stable_descending 5 seven_submissions).
    unfold seven_submissions. simpl.
    repeat (constructor; [intros H; discriminate H |]). constructor.
Defined.

(** C10: when the insertion index reaches the capacity, [add] returns the
    store as it was: the table is unchanged, the sync promise is not
    resolved and no write is started, so the coroutine has no new reason to
    write. *)
Theorem dropped_submission_leaves_store (h : Highscores.t) (e : Highscores.entry) :
  Highscores._max h
  <= Highscores.insertion_index (Highscores.value h) (Highscores.score e) ->
  Highscores.add h e = h /\
  Highscores.value (Highscores.add h e) = Highscores.value h /\
  Highscores.syncSlot (Highscores.add h e) = Highscores.syncSlot h /\
  Highscores.writing (Highscores.add h e) = Highscores.writing h.
Proof.
  intros H. rewrite (add_dropped h e H). repeat split.
Qed.

Lemma dropped_submission_leaves_store_witness :
  Highscores.add full_table (submission 1) = full_table /\
  Highscores.value (Highscores.add full_table (submission 1))
  = Highscores.value full_table /\
  Highscores.syncSlot (Highscores.add full_table (submission 1)) = false /\
  Highscores.writing (Highscores.add full_table (submission 1)) = [].
Proof.
  apply (dropped_submission_leaves_store full_table (submission 1)).
  vm_compute. lia.
Defined.

(** ** The sync coroutine *)

(** A write starts only in a [sync] step, which needs a resolved promise. *)
Lemma write_needs_signal (h h' : Highscores.t) :
  Highscores.step h h' ->
  List.length (Highscores.writing h) < List.length (Highscores.writing h') ->
  Highscores.syncSlot h = true.
Proof.
  intros Hstep Hlen. destruct Hstep as [h e | h Hs | h i Hi].
  - exfalso. unfold Highscores.add in Hlen.
    destruct (Highscores.insertion_index (Highscores.value h) (Highscores.score e)
              <? Highscores._max h); simpl in Hlen; lia.
  - exact Hs.
  - exfalso. unfold Highscores.finish in Hlen.
    cbn [Highscores.writing] in Hlen.
    rewrite length_app, length_firstn, length_skipn in Hlen. lia.
Qed.

(** No signal is lost: while the promise is pending, the latest write was
    given the table as it is now. *)
Lemma pending_promise_table_written (loaded : list Highscores.entry) (cap : nat)
      (h : Highscores.t) :
  Highscores.steps (Highscores.constructor loaded cap) h ->
  Highscores.syncSlot h = false ->
  Highscores.last_write h = Highscores.value h.
Proof.
  intros Hsteps.
  remember (Highscores.constructor loaded cap) as h0 eqn:Eh0.
  induction Hsteps as [| h1 h2 h3 _ IH Hstep].
  - subst. reflexivity.
  - specialize (IH Eh0). destruct Hstep as [h e | h Hs | h i Hi].
    + unfold Highscores.add.
      destruct (Highscores.insertion_index (Highscores.value h) (Highscores.score e)
                <? Highscores._max h); simpl; [discriminate | exact IH].
    + reflexivity.
    + simpl. exact IH.
Qed.

(** C9: [writeFile] is called and not awaited, so the coroutine returns to
    [await syncSlot] while the write is running.  Two submissions, each
    followed by a turn of the coroutine, leave two writes to the file in
    flight at once. *)
Theorem two_writes_in_flight :
  Highscores.steps
    (Highscores.constructor [] 5)
    (Highscores.sync
       (Highscores.add
          (Highscores.sync (Highscores.add (Highscores.constructor [] 5) (submission 1)))
          (submission 2))) /\
  Highscores.writing
    (Highscores.sync
       (Highscores.add
          (Highscores.sync (Highscores.add (Highscores.constructor [] 5) (submission 1)))
          (submission 2)))
  = [ [submission 2; submission 1]; [submission 1] ].
Proof.
  split; [| reflexivity].
  eapply Highscores.steps_step; [| apply Highscores.step_sync; reflexivity].
  eapply Highscores.steps_step; [| apply Highscores.step_add].
  eapply Highscores.steps_step; [| apply Highscores.step_sync; reflexivity].
  eapply Highscores.steps_step; [| apply Highscores.step_add].
  apply Highscores.steps_refl.
Qed.

Lemma newGame_initial_state_witness :
  HangmanGame.word (Server.newGame "Foo 2") = "Foo 2"%string /\
  HangmanGame.turns (Server.newGame "Foo 2") = 0 /\
  HangmanGame.charsGuessed (Server.newGame "Foo 2") = [] /\
  NoDup (HangmanGame.charsNeeded (Server.newGame "Foo 2")) /\
  (forall c, In c (HangmanGame.charsNeeded (Server.newGame "Foo 2")) <->
             In c (filter is_alnum (toLowerCase "Foo 2"))) /\
  (HangmanGame.won (Server.newGame "Foo 2") = false <->
   exists c, In c (toLowerCase "Foo 2") /\ is_alnum c = true) /\
  (HangmanGame.won (Server.newGame "Foo 2") = false <->
   HangmanGame.charsNeeded (Server.newGame "Foo 2") <> []).
Proof.
  exact (newGame_initial_state "Foo 2").
Defined.


(** * Further properties of the code *)

(** ** The hidden word *)

Lemma length_string_of_list_ascii (l : list ascii) :
  String.length (string_of_list_ascii l) = List.length l.
Proof. induction l as [| a l IH]; simpl; congruence. Qed.

Lemma length_list_ascii_of_string (s : string) :
  List.length (list_ascii_of_string s) = String.length s.
Proof. induction s as [| a s IH]; simpl; congruence. Qed.

Lemma hiddenWord_chars (g : HangmanGame.t) (c : ascii) :
  In c (list_ascii_of_string (HangmanGame.hiddenWord g)) ->
  is_alnum c = true ->
  In c (HangmanGame.charsGuessed g) /\ In c (toLowerCase (HangmanGame.word g)).
Proof.
  unfold HangmanGame.hiddenWord. rewrite list_ascii_of_string_of_list_ascii.
  intros Hin Hc. apply in_map_iff in Hin. destruct Hin as [a [Ha Hin]].
  destruct (is_alnum a && negb (CharSet.has (HangmanGame.charsGuessed g) a)) eqn:E.
  - subst c. discriminate Hc.
  - subst c. rewrite Hc in E. simpl in E.
    apply negb_false_iff in E. apply has_In in E. now split.
Qed.

(** X1: the hidden word is as long as the lower-cased word, and a letter
    or digit that it shows is a guessed character of the lower-cased word:
    no character that was not guessed is disclosed. *)
Theorem hiddenWord_discloses_guessed_only (g : HangmanGame.t) :
  String.length (HangmanGame.hiddenWord g)
  = List.length (toLowerCase (HangmanGame.word g)) /\
  (forall c,
      In c (list_ascii_of_string (HangmanGame.hiddenWord g)) ->
      is_alnum c = true ->
      In c (HangmanGame.charsGuessed g) /\ In c (toLowerCase (HangmanGame.word g))).
Proof.
  split.
  - unfold HangmanGame.hiddenWord.
    now rewrite length_string_of_list_ascii, length_map.
  - apply hiddenWord_chars.
Qed.

Lemma hiddenWord_discloses_guessed_only_witness :
  In "o"%char (HangmanGame.charsGuessed (HangmanGame.mk "Foo" 1 ["f"; "o"]%char ["o"%char])) /\
  In "o"%char (toLowerCase "Foo").
Proof.
  apply (proj2 (hiddenWord_discloses_guessed_only
                  (HangmanGame.mk "Foo" 1 ["f"; "o"]%char ["o"%char])) "o"%char).
  - simpl. tauto.
  - reflexivity.
Defined.

Lemma reachable_invariant (w : string) (g : HangmanGame.t) :
  Server.reachable w g -> game_invariant g.
Proof.
  intros H. induction H as [| g guess g' _ IH Hstep].
  - split; simpl; [intros x [] | lia].
  - eapply applyGuess_preserves_invariant; eassumption.
Qed.

(** In a won game that was reached by guesses every needed character is
    guessed. *)
Lemma won_all_guessed (w : string) (g : HangmanGame.t) :
  Server.reachable w g -> HangmanGame.won g = true ->
  incl (HangmanGame.charsNeeded g) (HangmanGame.charsGuessed g).
Proof.
  intros Hreach Hwon.
  destruct (reachable_invariant w g Hreach) as [Hincl _].
  destruct (well_formed_reachable w g Hreach) as [_ Hnd].
  unfold HangmanGame.won, CharSet.size in Hwon. apply Nat.eqb_eq in Hwon.
  apply NoDup_length_incl; [assumption | lia | assumption].
Qed.

(** X2: when a game reached by guesses is won, its hidden word is the
    whole word in lower case. *)
Theorem hiddenWord_won (w : string) (g : HangmanGame.t) :
  Server.reachable w g -> HangmanGame.won g = true ->
  HangmanGame.hiddenWord g = string_of_list_ascii (toLowerCase (HangmanGame.word g)).
Proof.
  intros Hreach Hwon. unfold HangmanGame.hiddenWord. f_equal.
  rewrite <- (map_id (toLowerCase (HangmanGame.word g))) at 2.
  apply map_ext_in. intros a Ha.
  destruct (is_alnum a) eqn:E; [| reflexivity].
  assert (Hg : In a (HangmanGame.charsGuessed g)).
  { apply (won_all_guessed w g Hreach Hwon).
    destruct (well_formed_reachable w g Hreach) as [-> _].
    apply of_list_In, filter_In. now split. }
  apply has_In in Hg. now rewrite Hg.
Qed.

Lemma hiddenWord_won_witness :
  HangmanGame.hiddenWord (HangmanGame.mk "Ab!" 2 ["a"; "b"]%char ["b"; "a"]%char)
  = "ab!"%string.
Proof.
  apply (hiddenWord_won "Ab!" (HangmanGame.mk "Ab!" 2 ["a"; "b"]%char ["b"; "a"]%char)).
  - apply Server.reachable_guess
      with (g := HangmanGame.mk "Ab!" 1 ["a"; "b"]%char ["b"%char]) (guess := "a"%string).
    + apply Server.reachable_guess with (g := Server.newGame "Ab!") (guess := "b"%string).
      * apply Server.reachable_new.
      * reflexivity.
    + reflexivity.
  - reflexivity.
Defined.

(** ** Sequences of guesses *)

Lemma applyGuess_guessed_grows (g g' : HangmanGame.t) (guess : string) :
  Server.applyGuess g guess = Server.Ok g' ->
  incl (HangmanGame.charsGuessed g) (HangmanGame.charsGuessed g').
Proof.
  intros H. apply applyGuess_inv in H. destruct H as [_ [c [_ [_ ->]]]]. simpl.
  destruct (CharSet.has (HangmanGame.charsNeeded g) c); [| apply incl_refl].
  intros x Hx. apply In_add. now left.
Qed.

(** X3: a sequence of guesses that is accepted counts one turn for each
    guess, keeps the word and the needed characters, and never takes a
    guessed character back; every guess in it is a letter or a digit. *)
Theorem play_counts_every_guess (guesses : list ascii) :
  forall g g',
    Server.play g guesses = Server.Ok g' ->
    HangmanGame.turns g' = HangmanGame.turns g + List.length guesses /\
    HangmanGame.word g' = HangmanGame.word g /\
    HangmanGame.charsNeeded g' = HangmanGame.charsNeeded g /\
    incl (HangmanGame.charsGuessed g) (HangmanGame.charsGuessed g') /\
    Forall (fun c => is_alnum c = true) guesses.
Proof.
  induction guesses as [| c rest IH]; intros g g' H; simpl in H.
  - injection H as <-. simpl. repeat split; try lia; [apply incl_refl | constructor].
  - destruct (Server.applyGuess g (String c EmptyString)) as [g1 | e] eqn:E;
      [| discriminate].
    destruct (IH g1 g' H) as [Ht [Hw [Hn [Hg Hall]]]].
    pose proof (applyGuess_guessed_grows _ _ _ E) as Hgrow.
    apply applyGuess_inv in E.
    destruct E as [_ [c' [Heq [Hc' Hg1]]]]. injection Heq as <-.
    rewrite Hg1 in Ht, Hw, Hn. simpl in Ht, Hw, Hn.
    repeat split; try assumption.
    + simpl. lia.
    + eapply incl_tran; eassumption.
    + constructor; assumption.
Qed.

Lemma play_counts_every_guess_witness :
  HangmanGame.turns (HangmanGame.mk "ab" 3 ["a"; "b"]%char ["b"%char])
  = HangmanGame.turns (Server.newGame "ab") + List.length ["x"; "b"; "B"]%char /\
  HangmanGame.word (HangmanGame.mk "ab" 3 ["a"; "b"]%char ["b"%char])
  = HangmanGame.word (Server.newGame "ab") /\
  HangmanGame.charsNeeded (HangmanGame.mk "ab" 3 ["a"; "b"]%char ["b"%char])
  = HangmanGame.charsNeeded (Server.newGame "ab") /\
  incl (HangmanGame.charsGuessed (Server.newGame "ab"))
       (HangmanGame.charsGuessed (HangmanGame.mk "ab" 3 ["a"; "b"]%char ["b"%char])) /\
  Forall (fun c => is_alnum c = true) ["x"; "b"; "B"]%char.
Proof.
  apply (play_counts_every_guess ["x"; "b"; "B"]%char (Server.newGame "ab")).
  reflexivity.
Defined.

Lemma applyGuess_won (g : HangmanGame.t) (guess : string) :
  HangmanGame.won g = true ->
  Server.applyGuess g guess = Server.Throw (Server.Http 410 "The game is already won!").
Proof. intros H. unfold Server.applyGuess. now rewrite H. Qed.

(** X4: a won game takes no further guess: once a sequence of guesses has
    won, whatever is submitted after it, a valid guess or not, is answered
    410 and the sequence as a whole gives no game. *)
Theorem no_guess_after_win
        (g g' : HangmanGame.t) (guesses rest : list ascii) (c : ascii) :
  Server.play g guesses = Server.Ok g' ->
  HangmanGame.won g' = true ->
  (forall guess,
      Server.applyGuess g' guess
      = Server.Throw (Server.Http 410 "The game is already won!")) /\
  Server.play g (guesses ++ c :: rest)
  = Server.Throw (Server.Http 410 "The game is already won!").
Proof.
  intros Hplay Hwon. split.
  - intros guess. now apply applyGuess_won.
  - rewrite play_app, Hplay. simpl. now rewrite applyGuess_won.
Qed.

Lemma no_guess_after_win_witness :
  (forall guess,
      Server.applyGuess (HangmanGame.mk "a" 1 ["a"%char] ["a"%char]) guess
      = Server.Throw (Server.Http 410 "The game is already won!")) /\
  Server.play (Server.newGame "a") (["a"%char] ++ "b"%char :: [])
  = Server.Throw (Server.Http 410 "The game is already won!").
Proof.
  apply (no_guess_after_win (Server.newGame "a")
           (HangmanGame.mk "a" 1 ["a"%char] ["a"%char]) ["a"%char] [] "b"%char);
    reflexivity.
Defined.

(** X5: a won game that was reached by guesses has guessed exactly the
    needed characters and has taken at least one turn for each of them. *)
Theorem won_game_guessed_all (w : string) (g : HangmanGame.t) :
  Server.reachable w g -> HangmanGame.won g = true ->
  (forall c, In c (HangmanGame.charsGuessed g) <-> In c (HangmanGame.charsNeeded g)) /\
  NoDup (HangmanGame.charsGuessed g) /\
  CharSet.size (HangmanGame.charsNeeded g) <= HangmanGame.turns g.
Proof.
  intros Hreach Hwon.
  destruct (reachable_invariant w g Hreach) as [Hincl Hturns].
  destruct (well_formed_reachable w g Hreach) as [_ Hnd].
  split; [| split].
  - intros c. split; [apply Hincl | apply (won_all_guessed w g Hreach Hwon)].
  - exact Hnd.
  - unfold HangmanGame.won in Hwon. apply Nat.eqb_eq in Hwon. lia.
Qed.

Lemma won_game_guessed_all_witness :
  (forall c, In c ["b"; "a"]%char <-> In c ["a"; "b"]%char) /\
  NoDup ["b"; "a"]%char /\
  2 <= 3.
Proof.
  apply (won_game_guessed_all "ab" (HangmanGame.mk "ab" 3 ["a"; "b"]%char ["b"; "a"]%char)).
  - apply Server.reachable_guess
      with (g := HangmanGame.mk "ab" 2 ["a"; "b"]%char ["b"%char]) (guess := "a"%string).
    + apply Server.reachable_guess
        with (g := HangmanGame.mk "ab" 1 ["a"; "b"]%char ["b"%char]) (guess := "x"%string).
      * apply Server.reachable_guess with (g := Server.newGame "ab") (guess := "b"%string).
        -- apply Server.reachable_new.
        -- reflexivity.
      * reflexivity.
    + reflexivity.
  - reflexivity.
Defined.

(** ** The needed characters and guesses that add nothing *)

Lemma toLowerCase_not_upper (a : ascii) : is_upper (toLowerCase_char a) = false.
Proof. destruct a as [[] [] [] [] [] [] [] []]; reflexivity. Qed.

Lemma needed_lower_or_digit (g : HangmanGame.t) (c : ascii) :
  well_formed g -> In c (HangmanGame.charsNeeded g) ->
  is_lower c || is_digit c = true.
Proof.
  intros [Hneeded _] Hin. rewrite Hneeded in Hin.
  apply of_list_In, filter_In in Hin. destruct Hin as [Hin Halnum].
  unfold toLowerCase in Hin. apply in_map_iff in Hin.
  destruct Hin as [a [<- _]].
  unfold is_alnum in Halnum. rewrite toLowerCase_not_upper in Halnum.
  now rewrite orb_false_r in Halnum.
Qed.

Lemma lower_or_digit_guessable (c : ascii) :
  is_lower c || is_digit c = true -> In c guessable_chars.
Proof.
  destruct c as [[] [] [] [] [] [] [] []]; intros H; try discriminate H;
    unfold guessable_chars; simpl;
    repeat (first [left; reflexivity | right]).
Qed.

(** X6: the needed characters of a game reached by guesses are lower-case
    letters and digits, without repetition, so there are at most 36 of
    them (the table [charnum_difficulty] ends at 26). *)
Theorem charsNeeded_at_most_36 (w : string) (g : HangmanGame.t) :
  Server.reachable w g ->
  NoDup (HangmanGame.charsNeeded g) /\
  (forall c, In c (HangmanGame.charsNeeded g) ->
             is_lower c || is_digit c = true /\ In c guessable_chars) /\
  CharSet.size (HangmanGame.charsNeeded g) <= 36.
Proof.
  intros Hreach. pose proof (well_formed_reachable w g Hreach) as Hwf.
  assert (Hnd : NoDup (HangmanGame.charsNeeded g)).
  { destruct Hwf as [-> _]. apply of_list_NoDup. }
  assert (Hall : forall c, In c (HangmanGame.charsNeeded g) ->
                           is_lower c || is_digit c = true /\ In c guessable_chars).
  { intros c Hc. pose proof (needed_lower_or_digit g c Hwf Hc) as H.
    split; [exact H | now apply lower_or_digit_guessable]. }
  split; [exact Hnd | split; [exact Hall |]].
  change 36 with (List.length guessable_chars).
  apply NoDup_incl_length; [exact Hnd |].
  intros c Hc. now apply Hall.
Qed.

Lemma charsNeeded_at_most_36_witness :
  NoDup (HangmanGame.charsNeeded (Server.newGame "Foo 2")) /\
  (forall c, In c (HangmanGame.charsNeeded (Server.newGame "Foo 2")) ->
             is_lower c || is_digit c = true /\ In c guessable_chars) /\
  CharSet.size (HangmanGame.charsNeeded (Server.newGame "Foo 2")) <= 36.
Proof.
  apply (charsNeeded_at_most_36 "Foo 2" (Server.newGame "Foo 2")).
  apply Server.reachable_new.
Defined.

Lemma is_upper_alnum (c : ascii) : is_upper c = true -> is_alnum c = true.
Proof. intros H. unfold is_alnum. rewrite H. now destruct (is_lower c). Qed.

Lemma is_upper_not_lower_or_digit (c : ascii) :
  is_upper c = true -> is_lower c || is_digit c = false.
Proof. destruct c as [[] [] [] [] [] [] [] []]; intros H; try discriminate H; reflexivity. Qed.

(** X7: in a game reached by guesses that is not won, an upper-case letter
    is accepted as a guess and never matches: it costs a turn and changes
    nothing else, whatever the word. *)
Theorem uppercase_guess_never_matches (w : string) (g : HangmanGame.t) (c : ascii) :
  Server.reachable w g -> HangmanGame.won g = false -> is_upper c = true ->
  CharSet.has (HangmanGame.charsNeeded g) c = false /\
  Server.applyGuess g (String c EmptyString) = Server.Ok (after_wrong_guess g).
Proof.
  intros Hreach Hwon Hup.
  assert (Hnot : CharSet.has (HangmanGame.charsNeeded g) c = false).
  { apply has_false. intros Hin.
    pose proof (needed_lower_or_digit g c (well_formed_reachable w g Hreach) Hin) as H.
    rewrite (is_upper_not_lower_or_digit c Hup) in H. discriminate H. }
  split; [exact Hnot |].
  rewrite (applyGuess_char g c Hwon (is_upper_alnum c Hup)), Hnot.
  reflexivity.
Qed.

Lemma uppercase_guess_never_matches_witness :
  CharSet.has (HangmanGame.charsNeeded (Server.newGame "Foo")) "F" = false /\
  Server.applyGuess (Server.newGame "Foo") "F"
  = Server.Ok (after_wrong_guess (Server.newGame "Foo")).
Proof.
  apply (uppercase_guess_never_matches "Foo" (Server.newGame "Foo") "F"%char).
  - apply Server.reachable_new.
  - reflexivity.
  - reflexivity.
Defined.

(** X8: guessing again a character that is already guessed is accepted and
    treated as an incorrect guess: only the turn count grows, and the score
    is not higher than before. *)
Theorem repeated_guess_costs_a_turn (w : string) (g : HangmanGame.t) (c : ascii) :
  Server.reachable w g -> HangmanGame.won g = false ->
  In c (HangmanGame.charsGuessed g) ->
  Server.applyGuess g (String c EmptyString) = Server.Ok (after_wrong_guess g) /\
  lt (HangmanGame.score g) (HangmanGame.score (after_wrong_guess g)) = false.
Proof.
  intros Hreach Hwon Hin.
  destruct (reachable_invariant w g Hreach) as [Hincl _].
  pose proof (well_formed_reachable w g Hreach) as Hwf.
  assert (Hneeded : In c (HangmanGame.charsNeeded g)) by now apply Hincl.
  assert (Halnum : is_alnum c = true).
  { pose proof (needed_lower_or_digit g c Hwf Hneeded) as H.
    unfold is_alnum. apply orb_true_iff in H. destruct H as [-> | ->];
      [reflexivity | apply orb_true_r]. }
  split; [| apply wrong_guess_scores_any].
  rewrite (applyGuess_char g c Hwon Halnum).
  apply has_In in Hneeded. rewrite Hneeded.
  rewrite (add_present _ _ Hin). reflexivity.
Qed.

Lemma repeated_guess_costs_a_turn_witness :
  Server.applyGuess (HangmanGame.mk "ab" 1 ["a"; "b"]%char ["b"%char]) "b"
  = Server.Ok (after_wrong_guess (HangmanGame.mk "ab" 1 ["a"; "b"]%char ["b"%char])) /\
  lt (HangmanGame.score (HangmanGame.mk "ab" 1 ["a"; "b"]%char ["b"%char]))
     (HangmanGame.score
        (after_wrong_guess (HangmanGame.mk "ab" 1 ["a"; "b"]%char ["b"%char])))
  = false.
Proof.
  apply (repeated_guess_costs_a_turn "ab"
           (HangmanGame.mk "ab" 1 ["a"; "b"]%char ["b"%char]) "b"%char).
  - apply Server.reachable_guess with (g := Server.newGame "ab") (guess := "b"%string).
    + apply Server.reachable_new.
    + reflexivity.
  - reflexivity.
  - now left.
Defined.

(** ** The score *)

Lemma rawScore_fin_needed (needed : CharSet.t) :
  1 <= CharSet.size needed <= 26 ->
  exists k, (0 < k)%Q /\
    forall w t guessed,
      HangmanGame.rawScore (HangmanGame.mk w t needed guessed)
      = Fin (k * (inject_Z (Z.of_nat (CharSet.size guessed)) / 1)
             * Qpower (1 # 2) (Z.of_nat t - Z.of_nat (CharSet.size guessed))
             * (1 # 10000))%Q.
Proof.
  intros [Hlo Hhi].
  destruct (bruteforceDifficulty_fin (HangmanGame.mk "" 0 needed []) Hhi)
    as [b [Hb Hbpos]].
  destruct (avrageLetterDifficulty_fin (HangmanGame.mk "" 0 needed []) Hlo)
    as [a [Ha Hapos]].
  exists (b * a)%Q. split; [now apply Qmult_lt_0_compat |].
  intros w t guessed. unfold HangmanGame.rawScore.
  change (HangmanGame.bruteforceDifficulty (HangmanGame.mk w t needed guessed))
    with (HangmanGame.bruteforceDifficulty (HangmanGame.mk "" 0 needed [])).
  change (HangmanGame.avrageLetterDifficulty (HangmanGame.mk w t needed guessed))
    with (HangmanGame.avrageLetterDifficulty (HangmanGame.mk "" 0 needed [])).
  rewrite Hb, Ha, turnCoefficient_nonempty by exact Hlo.
  reflexivity.
Qed.

(** X9: the score is a non-negative integer, the rounded raw score, for
    every game with 1 to 26 needed characters; with none or with more than
    26 it is [NaN] or [Infinity]. *)
Theorem score_integer_on_table_domain (g : HangmanGame.t) :
  (1 <= CharSet.size (HangmanGame.charsNeeded g) <= 26 ->
   exists q z,
     HangmanGame.rawScore g = Fin q /\ (0 <= q)%Q /\
     z = Qfloor (q + (1 # 2)) /\ (0 <= z)%Z /\
     HangmanGame.score g = Fin (inject_Z z)) /\
  (CharSet.size (HangmanGame.charsNeeded g) = 0 \/
   26 < CharSet.size (HangmanGame.charsNeeded g) ->
   HangmanGame.score g = NaN \/ HangmanGame.score g = Infinity false).
Proof.
  destruct g as [w t needed guessed]. simpl. split.
  - intros H. destruct (rawScore_fin needed guessed H) as [k [Hk Hraw]].
    eexists. eexists. split; [apply Hraw |].
    split; [now apply rawScore_nonneg_factor |].
    split; [reflexivity |].
    split; [apply round_nonneg; now apply rawScore_nonneg_factor |].
    apply score_fin. apply Hraw.
  - intros [H | H].
    + destruct needed; [| discriminate H].
      unfold HangmanGame.score. rewrite rawScore_empty.
      destruct guessed; [now left | now right].
    + left. unfold HangmanGame.score. now rewrite rawScore_large.
Qed.

Lemma score_integer_on_table_domain_witness :
  (exists q z,
     HangmanGame.rawScore (HangmanGame.mk "ab" 2 ["a"; "b"]%char ["a"; "b"]%char) = Fin q /\
     (0 <= q)%Q /\ z = Qfloor (q + (1 # 2)) /\ (0 <= z)%Z /\
     HangmanGame.score (HangmanGame.mk "ab" 2 ["a"; "b"]%char ["a"; "b"]%char)
     = Fin (inject_Z z)) /\
  (HangmanGame.score (Server.newGame "?!") = NaN \/
   HangmanGame.score (Server.newGame "?!") = Infinity false).
Proof.
  split.
  - apply (proj1 (score_integer_on_table_domain
                    (HangmanGame.mk "ab" 2 ["a"; "b"]%char ["a"; "b"]%char))).
    simpl. lia.
  - apply (proj2 (score_integer_on_table_domain (Server.newGame "?!"))).
    left. reflexivity.
Defined.

(** X10: a new game scores 0 when its word has 1 to 26 needed characters
    and [NaN] otherwise. *)
Theorem score_newGame (w : string) :
  HangmanGame.score (Server.newGame w) =
  if (1 <=? CharSet.size (HangmanGame.charsNeeded (Server.newGame w)))
     && (CharSet.size (HangmanGame.charsNeeded (Server.newGame w)) <=? 26)
  then Fin 0%Q else NaN.
Proof.
  set (needed := CharSet.of_list (filter is_alnum (toLowerCase w))).
  change (Server.newGame w) with (HangmanGame.mk w 0 needed []).
  cbn [HangmanGame.charsNeeded].
  destruct (1 <=? CharSet.size needed) eqn:E1; cbn [andb].
  - destruct (CharSet.size needed <=? 26) eqn:E2.
    + apply Nat.leb_le in E1, E2.
      destruct (rawScore_fin needed [] (conj E1 E2)) as [k [Hk Hraw]].
      rewrite (score_fin _ _ (Hraw w 0)). simpl CharSet.size.
      set (p := Qpower (1 # 2) (Z.of_nat 0 - Z.of_nat 0)).
      assert (Hz : (k * (inject_Z (Z.of_nat 0) / 1) * p * (1 # 10000) + (1 # 2)
                    == 1 # 2)%Q).
      { change (inject_Z (Z.of_nat 0)) with 0%Q. unfold Qdiv.
        change (/ 1)%Q with 1%Q. ring. }
      rewrite Hz. reflexivity.
    + apply Nat.leb_gt in E2. unfold HangmanGame.score.
      now rewrite rawScore_large.
  - apply Nat.leb_gt in E1. unfold HangmanGame.score.
    destruct needed; [| simpl in E1; lia].
    now rewrite rawScore_empty.
Qed.

(** X11: for a word with 1 to 26 needed characters and while fewer than
    1000 guesses were incorrect, a guess that is needed and not yet guessed
    is added to the guessed characters, raises the raw score strictly and
    never lowers the score. *)
Theorem correct_guess_raises_raw_score (g : HangmanGame.t) (c : ascii) :
  1 <= CharSet.size (HangmanGame.charsNeeded g) <= 26 ->
  HangmanGame.turns g < 1000 + CharSet.size (HangmanGame.charsGuessed g) ->
  HangmanGame.won g = false ->
  is_alnum c = true ->
  In c (HangmanGame.charsNeeded g) ->
  ~ In c (HangmanGame.charsGuessed g) ->
  exists g',
    Server.applyGuess g (String c EmptyString) = Server.Ok g' /\
    HangmanGame.charsGuessed g' = HangmanGame.charsGuessed g ++ [c] /\
    HangmanGame.turns g' = S (HangmanGame.turns g) /\
    lt (HangmanGame.rawScore g) (HangmanGame.rawScore g') = true /\
    lt (HangmanGame.score g') (HangmanGame.score g) = false.
Proof.
  intros Hsize _ Hwon Halnum Hneeded Hfresh.
  rewrite (applyGuess_char g c Hwon Halnum).
  apply has_In in Hneeded. rewrite Hneeded.
  rewrite (add_absent _ _ Hfresh).
  eexists. split; [reflexivity |]. simpl.
  split; [reflexivity |]. split; [reflexivity |].
  destruct g as [w t needed guessed]. simpl in *.
  destruct (rawScore_fin_needed needed Hsize) as [k [Hk Hraw]].
  pose proof (Hraw w t guessed) as H1.
  pose proof (Hraw w (S t) (guessed ++ [c])) as H2.
  unfold CharSet.size in H1, H2. rewrite length_app in H2. simpl List.length in H2.
  replace (Z.of_nat (S t) - Z.of_nat (List.length guessed + 1))%Z
    with (Z.of_nat t - Z.of_nat (List.length guessed))%Z in H2 by lia.
  set (p := Qpower (1 # 2) (Z.of_nat t - Z.of_nat (List.length guessed))) in *.
  assert (Hp : (0 < p)%Q) by apply Qpower_half_pos.
  set (n := inject_Z (Z.of_nat (List.length guessed))) in *.
  assert (Hn : (0 <= n)%Q) by apply of_nat_nonneg.
  assert (Hn' : (inject_Z (Z.of_nat (List.length guessed + 1)) == n + 1)%Q).
  { rewrite Nat2Z.inj_add, inject_Z_plus. reflexivity. }
  assert (Hd : (0 < k * p * (1 # 10000))%Q).
  { apply Qmult_lt_0_compat; [| reflexivity]. now apply Qmult_lt_0_compat. }
  assert (Heq : (k * (inject_Z (Z.of_nat (List.length guessed + 1)) / 1) * p * (1 # 10000)
                 == k * (n / 1) * p * (1 # 10000) + k * p * (1 # 10000))%Q).
  { rewrite Hn'. unfold Qdiv. change (/ 1)%Q with 1%Q. ring. }
  split.
  - rewrite H1, H2. apply lt_Fin. rewrite Heq.
    generalize dependent (k * p * (1 # 10000))%Q. intros d Hd.
    generalize (k * (n / 1) * p * (1 # 10000))%Q. intros q. lra.
  - rewrite (score_fin _ _ H1), (score_fin _ _ H2).
    apply lt_Fin_false. rewrite <- Zle_Qle. apply Qfloor_resp_le.
    rewrite Heq.
    generalize dependent (k * p * (1 # 10000))%Q. intros d Hd.
    generalize (k * (n / 1) * p * (1 # 10000))%Q. intros q. lra.
Qed.

Lemma correct_guess_raises_raw_score_witness :
  exists g',
    Server.applyGuess (HangmanGame.mk "ab" 1 ["a"; "b"]%char ["b"%char]) "a"
    = Server.Ok g' /\
    HangmanGame.charsGuessed g' = ["b"%char] ++ ["a"%char] /\
    HangmanGame.turns g' = 2 /\
    lt (HangmanGame.rawScore (HangmanGame.mk "ab" 1 ["a"; "b"]%char ["b"%char]))
       (HangmanGame.rawScore g') = true /\
    lt (HangmanGame.score g')
       (HangmanGame.score (HangmanGame.mk "ab" 1 ["a"; "b"]%char ["b"%char])) = false.
Proof.
  apply (correct_guess_raises_raw_score
           (HangmanGame.mk "ab" 1 ["a"; "b"]%char ["b"%char]) "a"%char).
  - simpl. lia.
  - simpl. lia.
  - reflexivity.
  - reflexivity.
  - now left.
  - intros [H | []]. discriminate H.
Defined.

(** ** The table of brute force difficulties *)

(** X12: for every count from 0 to 26 the table holds the inverse of the
    probability that the comment above it gives, and the table reads the
    same from both ends. *)
Theorem charnum_difficulty_inverse_probability (n : nat) :
  n <= 26 ->
  exists q,
    nth_error charnum_difficulty n = Some q /\
    (q * bruteforce_probability n == 1)%Q /\
    nth_error charnum_difficulty (26 - n) = Some q.
Proof.
  intros H.
  do 27 (destruct n as [| n];
         [eexists; split; [reflexivity | split; reflexivity] |]).
  lia.
Qed.

Lemma charnum_difficulty_inverse_probability_witness :
  exists q,
    nth_error charnum_difficulty 13 = Some q /\
    (q * bruteforce_probability 13 == 1)%Q /\
    nth_error charnum_difficulty (26 - 13) = Some q.
Proof.
  apply (charnum_difficulty_inverse_probability 13). lia.
Defined.

(** ** Requests that carry a token *)

Section Requests.

Context {P : Platform} (privateKey : Key) (laws : PlatformLaws P privateKey).

Lemma send_encrypted (g : HangmanGame.t) (seed : Seed) (cipher : Buffer) :
  publicEncrypt privateKey seed
                (Buffer_from (JSON_stringify (HangmanGame.payload g))) = Some cipher ->
  Server.send g privateKey seed
  = Server.Ok (@HangmanGame.mkState P (toString_base64 cipher) (HangmanGame.hiddenWord g)
                 (HangmanGame.won g) (HangmanGame.score g) (HangmanGame.turns g)).
Proof.
  intros H. unfold Server.send, HangmanGame.serializeState. now rewrite H.
Qed.

Lemma send_refused (g : HangmanGame.t) (seed : Seed) :
  publicEncrypt privateKey seed
                (Buffer_from (JSON_stringify (HangmanGame.payload g))) = None ->
  Server.send g privateKey seed
  = Server.Throw (Server.Http 500 "Internal Server Error").
Proof.
  intros H. unfold Server.send, HangmanGame.serializeState. now rewrite H.
Qed.

Lemma decryptGame_encrypted (w : string) (g : HangmanGame.t) (seed : Seed)
      (cipher : Buffer) :
  Server.reachable w g ->
  publicEncrypt privateKey seed
                (Buffer_from (JSON_stringify (HangmanGame.payload g))) = Some cipher ->
  Server.decryptGame (toString_base64 cipher) privateKey = Server.Ok g.
Proof.
  intros Hreach Henc. unfold Server.decryptGame.
  now rewrite (decrypt_payload privateKey laws g seed cipher
                 (well_formed_reachable w g Hreach) Henc).
Qed.

(** X13: the server keeps no game between requests.  A guess posted with
    the token of a reached game is answered as the guess applied to that
    game: with the same exception; or, when [publicEncrypt] accepts the new
    game, with the state of the game after the guess, whose token decrypts
    to that game and which reports one more turn; or with 500 when
    [publicEncrypt] refuses it. *)
Theorem post_api_game_stateless
        (w : string) (g : HangmanGame.t) (seed seed' : Seed)
        (cipher : Buffer) (guess : string) :
  Server.reachable w g ->
  publicEncrypt privateKey seed
                (Buffer_from (JSON_stringify (HangmanGame.payload g))) = Some cipher ->
  (forall e,
      Server.applyGuess g guess = Server.Throw e ->
      Server.post_api_game guess (toString_base64 cipher) privateKey seed'
      = Server.Throw e) /\
  (forall g' cipher',
      Server.applyGuess g guess = Server.Ok g' ->
      publicEncrypt privateKey seed'
                    (Buffer_from (JSON_stringify (HangmanGame.payload g'))) = Some cipher' ->
      Server.post_api_game guess (toString_base64 cipher) privateKey seed'
      = Server.Ok (@HangmanGame.mkState P (toString_base64 cipher')
                     (HangmanGame.hiddenWord g') (HangmanGame.won g')
                     (HangmanGame.score g') (S (HangmanGame.turns g))) /\
      Server.decryptGame (toString_base64 cipher') privateKey = Server.Ok g') /\
  (forall g',
      Server.applyGuess g guess = Server.Ok g' ->
      publicEncrypt privateKey seed'
                    (Buffer_from (JSON_stringify (HangmanGame.payload g'))) = None ->
      Server.post_api_game guess (toString_base64 cipher) privateKey seed'
      = Server.Throw (Server.Http 500 "Internal Server Error")).
Proof.
  intros Hreach Henc.
  pose proof (decryptGame_encrypted w g seed cipher Hreach Henc) as Hdec.
  unfold Server.post_api_game. rewrite Hdec. split; [| split].
  - intros e He. now rewrite He.
  - intros g' cipher' Hg' Henc'. rewrite Hg'.
    assert (Hreach' : Server.reachable w g')
      by (eapply Server.reachable_guess; eassumption).
    split.
    + rewrite (send_encrypted g' seed' cipher' Henc').
      apply applyGuess_inv in Hg'. destruct Hg' as [_ [c [_ [_ ->]]]]. reflexivity.
    + exact (decryptGame_encrypted w g' seed' cipher' Hreach' Henc').
  - intros g' Hg' Henc'. rewrite Hg'. now apply send_refused.
Qed.

(** X14: when [publicEncrypt] accepts the new game, [PUT /api/game] sends
    a state with no turn, with a word as long as the lower-cased word in
    which every letter and digit is hidden, and with a token that decrypts
    to the new game; when it refuses, the answer is 500. *)
Theorem put_api_game_state (word : string) (seed : Seed) :
  (forall cipher,
      publicEncrypt privateKey seed
        (Buffer_from (JSON_stringify (HangmanGame.payload (Server.newGame word))))
      = Some cipher ->
      exists st,
        Server.put_api_game word privateKey seed = Server.Ok st /\
        HangmanGame.state_game st = toString_base64 cipher /\
        Server.decryptGame (HangmanGame.state_game st) privateKey
        = Server.Ok (Server.newGame word) /\
        HangmanGame.state_turns st = 0 /\
        String.length (HangmanGame.state_word st) = List.length (toLowerCase word) /\
        (forall c, In c (list_ascii_of_string (HangmanGame.state_word st)) ->
                   is_alnum c = false)) /\
  (publicEncrypt privateKey seed
     (Buffer_from (JSON_stringify (HangmanGame.payload (Server.newGame word))))
   = None ->
   Server.put_api_game word privateKey seed
   = Server.Throw (Server.Http 500 "Internal Server Error")).
Proof.
  split.
  - intros cipher Henc. unfold Server.put_api_game.
    rewrite (send_encrypted (Server.newGame word) seed cipher Henc).
    eexists. split; [reflexivity |]. cbn [HangmanGame.state_game
      HangmanGame.state_turns HangmanGame.state_word].
    split; [reflexivity |].
    split; [exact (decryptGame_encrypted word (Server.newGame word) seed cipher
                     (Server.reachable_new word) Henc) |].
    split; [reflexivity |].
    split.
    + unfold HangmanGame.hiddenWord.
      now rewrite length_string_of_list_ascii, length_map.
    + intros c Hc. destruct (is_alnum c) eqn:E; [| reflexivity].
      destruct (hiddenWord_chars (Server.newGame word) c Hc E) as [[] _].
  - intros Henc. unfold Server.put_api_game. now apply send_refused.
Qed.

End Requests.

Lemma post_api_game_stateless_witness :
  Server.post_api_game (P := plain_platform) "?"
    (HangmanGame.payload (Server.newGame "ab")) tt tt
  = Server.Throw (Server.Http 400 "Your guess must be a single letter or digit!") /\
  Server.post_api_game (P := plain_platform) "b"
    (HangmanGame.payload (Server.newGame "ab")) tt tt
  = Server.Ok (@HangmanGame.mkState plain_platform
                 (HangmanGame.payload (HangmanGame.mk "ab" 1 ["a"; "b"]%char ["b"%char]))
                 "_b" false (Fin 13%Q) 1) /\
  Server.decryptGame (P := plain_platform)
    (HangmanGame.payload (HangmanGame.mk "ab" 1 ["a"; "b"]%char ["b"%char])) tt
  = Server.Ok (HangmanGame.mk "ab" 1 ["a"; "b"]%char ["b"%char]).
Proof.
  split.
  - apply (proj1 (post_api_game_stateless (P := plain_platform) tt plain_platform_laws
                    "ab" (Server.newGame "ab") tt tt
                    (HangmanGame.payload (Server.newGame "ab"))
                    "?" (Server.reachable_new "ab") eq_refl)).
    reflexivity.
  - apply (proj1 (proj2 (post_api_game_stateless (P := plain_platform) tt
                           plain_platform_laws
                           "ab" (Server.newGame "ab") tt tt
                           (HangmanGame.payload (Server.newGame "ab"))
                           "b" (Server.reachable_new "ab") eq_refl))
             (HangmanGame.mk "ab" 1 ["a"; "b"]%char ["b"%char])
             (HangmanGame.payload (HangmanGame.mk "ab" 1 ["a"; "b"]%char ["b"%char])));
      reflexivity.
Defined.

Lemma put_api_game_state_witness :
  exists st,
    Server.put_api_game (P := plain_platform) "Foo 2" tt tt = Server.Ok st /\
    HangmanGame.state_game st = HangmanGame.payload (Server.newGame "Foo 2") /\
    Server.decryptGame (P := plain_platform) (HangmanGame.state_game st) tt
    = Server.Ok (Server.newGame "Foo 2") /\
    HangmanGame.state_turns st = 0 /\
    String.length (HangmanGame.state_word st) = List.length (toLowerCase "Foo 2") /\
    (forall c, In c (list_ascii_of_string (HangmanGame.state_word st)) ->
               is_alnum c = false).
Proof.
  apply (proj1 (put_api_game_state (P := plain_platform) tt plain_platform_laws
                  "Foo 2" tt)
           (HangmanGame.payload (Server.newGame "Foo 2"))).
  reflexivity.
Defined.

(** X15: whatever string is sent as token, a game that [decrypt] returns
    is built by the constructor: its needed characters are those of its
    word and its guessed characters are not repeated.  (That they are
    among the needed ones is not checked.) *)
Theorem decrypt_builds_well_formed
        {P : Platform} (privateKey : Key) (token : Text) (g : HangmanGame.t) :
  HangmanGame.decrypt token privateKey = Some g ->
  well_formed g /\
  HangmanGame.constructor (HangmanGame.word g) (HangmanGame.charsGuessed g)
                          (HangmanGame.turns g) = g.
Proof.
  intros H. unfold HangmanGame.decrypt in H.
  destruct (privateDecrypt privateKey (Buffer_from_base64 token)); [| discriminate].
  destruct (JSON_parse (Buffer_toString b)) as [dat |]; [| discriminate].
  destruct (get_field "word" dat) as [[| | | wd | |] |]; try discriminate.
  destruct (HangmanGame.guessed_of_json (get_field "charsGuessed" dat)) as [guessed |];
    [| discriminate].
  destruct (HangmanGame.turns_of_json (get_field "turns" dat)) as [n |];
    [| discriminate].
  injection H as <-.
  assert (Hwf : well_formed (HangmanGame.constructor wd guessed n)).
  { split; simpl; [reflexivity | apply of_list_NoDup]. }
  split; [exact Hwf | now apply well_formed_constructor].
Qed.

Lemma decrypt_builds_well_formed_witness :
  well_formed (HangmanGame.mk "ab" 7 ["a"; "b"]%char ["z"%char]) /\
  HangmanGame.constructor "ab" ["z"%char] 7
  = HangmanGame.mk "ab" 7 ["a"; "b"]%char ["z"%char].
Proof.
  apply (decrypt_builds_well_formed (P := plain_platform) tt
           (game_json "ab" ["z"; "z"]%char 7)
           (HangmanGame.mk "ab" 7 ["a"; "b"]%char ["z"%char])).
  reflexivity.
Defined.

(** ** Submitting a score *)

Lemma badNick_false (nick : option json) :
  Api.badNick nick = false <->
  exists c rest,
    nick = Some (JString (String c rest)) /\
    Api.is_word_char c = true /\ String.length rest <= 15.
Proof.
  split.
  - destruct nick as [[| | | s | |] |]; simpl; try discriminate.
    destruct s as [| c rest]; simpl; [discriminate |].
    intros H. apply orb_false_iff in H. destruct H as [H1 H2].
    rewrite orb_false_r in H1. apply negb_false_iff in H1.
    exists c, rest. repeat split; [assumption |].
    destruct (String.length rest) as [| n] eqn:E; [lia |].
    apply Nat.leb_gt in H2. lia.
  - intros [c [rest [-> [Hc Hlen]]]]. simpl. rewrite Hc. simpl.
    destruct (String.length rest) as [| n] eqn:E; [reflexivity |].
    apply Nat.leb_gt. lia.
Qed.

(** X16: a score is entered exactly for a won game and a nick that is a
    string of 1 to 16 characters whose first character is a letter, a
    digit or an underscore; the characters after the first are not
    looked at.  The store then is the store after [add] of the score of
    the game under that nick. *)
Theorem submit_accepts (game : HangmanGame.t) (nick : option json)
        (h h' : Highscores.t) :
  Api.submit game nick h = Server.Ok h' <->
  HangmanGame.won game = true /\
  exists c rest,
    nick = Some (JString (String c rest)) /\
    Api.is_word_char c = true /\ String.length rest <= 15 /\
    h' = Highscores.add h (Highscores.mkEntry (HangmanGame.score game) (String c rest)).
Proof.
  unfold Api.submit. split.
  - destruct (HangmanGame.won game); simpl; [| discriminate].
    destruct (Api.badNick nick) eqn:E; [discriminate |].
    apply badNick_false in E. destruct E as [c [rest [-> [Hc Hlen]]]].
    intros H. injection H as <-. split; [reflexivity |].
    exists c, rest. repeat split; assumption.
  - intros [Hwon [c [rest [-> [Hc [Hlen ->]]]]]].
    rewrite Hwon. simpl negb. cbn iota.
    assert (E : Api.badNick (Some (JString (String c rest))) = false).
    { apply badNick_false. exists c, rest. repeat split; assumption. }
    now rewrite E.
Qed.

Lemma submit_accepts_witness :
  Api.submit (HangmanGame.mk "a" 1 ["a"%char] ["a"%char])
             (Some (JString "a <b>!")) (Highscores.constructor [] 5)
  = Server.Ok
      (Highscores.add (Highscores.constructor [] 5)
         (Highscores.mkEntry
            (HangmanGame.score (HangmanGame.mk "a" 1 ["a"%char] ["a"%char])) "a <b>!")).
Proof.
  apply (proj2 (submit_accepts (HangmanGame.mk "a" 1 ["a"%char] ["a"%char])
                  (Some (JString "a <b>!")) (Highscores.constructor [] 5) _)).
  split; [reflexivity |].
  exists "a"%char, " <b>!"%string. repeat split. simpl. lia.
Defined.

Lemma lt_NaN_r (a : number) : lt a NaN = false.
Proof. destruct a; reflexivity. Qed.

Lemma insertion_index_NaN (value : list Highscores.entry) :
  Highscores.insertion_index value NaN = List.length value.
Proof.
  apply insertion_index_not_lower.
  apply Forall_forall. intros x _. apply lt_NaN_r.
Qed.

Lemma newGame_no_letters (w : string) :
  (forall c, In c (toLowerCase w) -> is_alnum c = false) ->
  Server.newGame w = HangmanGame.mk w 0 [] [].
Proof.
  intros H. unfold Server.newGame, HangmanGame.constructor.
  replace (filter is_alnum (toLowerCase w)) with (@nil ascii); [reflexivity |].
  symmetry. now apply filter_nil_iff.
Qed.

(** X17: for a word whose lower-cased form has no letter and no digit the
    new game is already won and scores [NaN]: with a valid nick it is
    entered at once, always after every entry of the table, and it joins
    the table whenever there is room. *)
Theorem score_NaN_enters_table (w nick : string) (h : Highscores.t) :
  (forall c, In c (toLowerCase w) -> is_alnum c = false) ->
  Api.badNick (Some (JString nick)) = false ->
  Api.submit (Server.newGame w) (Some (JString nick)) h
  = Server.Ok (Highscores.add h (Highscores.mkEntry NaN nick)) /\
  Highscores.insertion_index (Highscores.value h) NaN
  = List.length (Highscores.value h) /\
  (List.length (Highscores.value h) < Highscores._max h ->
   Highscores.value (Highscores.add h (Highscores.mkEntry NaN nick))
   = Highscores.value h ++ [Highscores.mkEntry NaN nick]).
Proof.
  intros Hw Hnick. rewrite (newGame_no_letters w Hw).
  split; [| split].
  - unfold Api.submit. rewrite Hnick. reflexivity.
  - apply insertion_index_NaN.
  - intros Hroom. rewrite value_add. simpl Highscores.score.
    rewrite insertion_index_NaN.
    apply Nat.ltb_lt in Hroom. rewrite Hroom.
    rewrite firstn_all, skipn_all. apply firstn_all2.
    rewrite length_app. simpl. apply Nat.ltb_lt in Hroom. lia.
Qed.

Lemma score_NaN_enters_table_witness :
  Api.submit (Server.newGame "?!") (Some (JString "eve")) (Highscores.constructor [submission 9] 5)
  = Server.Ok (Highscores.add (Highscores.constructor [submission 9] 5)
                              (Highscores.mkEntry NaN "eve")) /\
  Highscores.insertion_index [submission 9] NaN = 1 /\
  (1 < 5 ->
   Highscores.value (Highscores.add (Highscores.constructor [submission 9] 5)
                                    (Highscores.mkEntry NaN "eve"))
   = [submission 9] ++ [Highscores.mkEntry NaN "eve"]).
Proof.
  apply (score_NaN_enters_table "?!" "eve" (Highscores.constructor [submission 9] 5)).
  - simpl. intros c [<- | [<- | []]]; reflexivity.
  - reflexivity.
Defined.

(** ** The table under [add] *)

Lemma length_value_add (h : Highscores.t) (e : Highscores.entry) :
  Highscores.insertion_index (Highscores.value h) (Highscores.score e)
  < Highscores._max h ->
  List.length (Highscores.value (Highscores.add h e))
  = Nat.min (Highscores._max h) (S (List.length (Highscores.value h))).
Proof.
  intros H. rewrite value_add. apply Nat.ltb_lt in H. rewrite H.
  rewrite length_firstn. f_equal.
  rewrite length_app. simpl. rewrite length_firstn, length_skipn.
  pose proof (insertion_index_le (Highscores.score e) (Highscores.value h)). lia.
Qed.

Lemma length_value_add_le (h : Highscores.t) (e : Highscores.entry) :
  List.length (Highscores.value h) <= Highscores._max h ->
  List.length (Highscores.value (Highscores.add h e)) <= Highscores._max h.
Proof.
  intros H.
  destruct (Nat.lt_ge_cases
              (Highscores.insertion_index (Highscores.value h) (Highscores.score e))
              (Highscores._max h)) as [Hlt | Hge].
  - rewrite (length_value_add h e Hlt). lia.
  - now rewrite (add_dropped h e Hge).
Qed.

(** X18: an accepted submission leaves at most the capacity of entries,
    whatever the table held, and a store that starts within its capacity
    stays within it through every submission, write and sync turn; the
    capacity itself never changes. *)
Theorem table_within_capacity :
  (forall h e,
      Highscores.insertion_index (Highscores.value h) (Highscores.score e)
      < Highscores._max h ->
      List.length (Highscores.value (Highscores.add h e)) <= Highscores._max h) /\
  (forall loaded cap h,
      Highscores.steps (Highscores.constructor loaded cap) h ->
      Highscores._max h = cap /\
      (List.length loaded <= cap -> List.length (Highscores.value h) <= cap)).
Proof.
  split.
  - intros h e H. rewrite (length_value_add h e H). lia.
  - intros loaded cap h Hsteps.
    remember (Highscores.constructor loaded cap) as h0 eqn:Eh0.
    induction Hsteps as [| h1 h2 h3 _ IH Hstep].
    + subst. simpl. split; [reflexivity | tauto].
    + destruct (IH Eh0) as [Hmax Hlen].
      destruct Hstep as [h e | h Hs | h i Hi].
      * rewrite max_add. split; [exact Hmax |].
        intros Hl. rewrite <- Hmax. apply length_value_add_le.
        rewrite Hmax. now apply Hlen.
      * simpl. split; assumption.
      * simpl. split; assumption.
Qed.

Lemma table_within_capacity_witness :
  List.length (Highscores.value (Highscores.add full_table (submission 8))) <= 5 /\
  Highscores._max (Highscores.sync (Highscores.add full_table (submission 8))) = 5 /\
  List.length
    (Highscores.value (Highscores.sync (Highscores.add full_table (submission 8)))) <= 5.
Proof.
  split.
  - apply (proj1 table_within_capacity full_table (submission 8)).
    vm_compute. lia.
  - assert (Hsteps : Highscores.steps
                       (Highscores.constructor (map submission [9; 8; 7; 5; 3]%Z) 5)
                       (Highscores.sync (Highscores.add full_table (submission 8)))).
    { eapply Highscores.steps_step; [| apply Highscores.step_sync; reflexivity].
      eapply Highscores.steps_step; [| apply Highscores.step_add].
      apply Highscores.steps_refl. }
    destruct (proj2 table_within_capacity _ _ _ Hsteps) as [Hmax Hlen].
    split; [exact Hmax | apply Hlen; simpl; lia].
Defined.

Lemma StronglySorted_firstn {A : Type} (R : A -> A -> Prop) (n : nat) (l : list A) :
  StronglySorted R l -> StronglySorted R (firstn n l).
Proof.
  revert l. induction n as [| n IH]; intros l H; [constructor |].
  destruct H as [| x l Hs Hx]; simpl; [constructor |].
  constructor; [now apply IH |].
  apply Forall_forall. intros y Hy.
  apply (proj1 (Forall_forall _ _) Hx). eapply In_firstn. exact Hy.
Qed.

Lemma Forall_firstn {A : Type} (Q : A -> Prop) (n : nat) (l : list A) :
  Forall Q l -> Forall Q (firstn n l).
Proof.
  intros H. apply Forall_forall. intros y Hy.
  apply (proj1 (Forall_forall _ _) H). eapply In_firstn. exact Hy.
Qed.

Lemma add_keeps_ranked (h : Highscores.t) (e : Highscores.entry) :
  List.length (Highscores.value h) <= Highscores._max h ->
  Forall Highscores.scored (Highscores.value h) ->
  StronglySorted Highscores.not_below (Highscores.value h) ->
  Highscores.scored e ->
  Forall Highscores.scored (Highscores.value (Highscores.add h e)) /\
  StronglySorted Highscores.not_below (Highscores.value (Highscores.add h e)).
Proof.
  intros Hlen Hsc Hs He.
  rewrite (add_ranked h e (Highscores.value h) Hsc Hs)
    by (symmetry; apply firstn_all2; exact Hlen).
  split.
  - apply Forall_firstn. now apply insert_desc_scored.
  - apply StronglySorted_firstn. now apply insert_desc_sorted.
Qed.

(** X19: the list that [GET /api/highscore] sends stays in descending
    order: on a table within its capacity that is in descending order,
    with numbers as scores, any sequence of submissions with numbers as
    scores leaves a table in descending order, within the capacity. *)
Theorem highscore_stays_descending (es : list Highscores.entry) :
  forall h,
    List.length (Highscores.value h) <= Highscores._max h ->
    Forall Highscores.scored (Highscores.value h) ->
    StronglySorted Highscores.not_below (Highscores.value h) ->
    Forall Highscores.scored es ->
    StronglySorted Highscores.not_below
                   (Api.get_api_highscore (fold_left Highscores.add es h)) /\
    Forall Highscores.scored (Api.get_api_highscore (fold_left Highscores.add es h)) /\
    List.length (Api.get_api_highscore (fold_left Highscores.add es h))
    <= Highscores._max h.
Proof.
  unfold Api.get_api_highscore.
  induction es as [| e es IH]; intros h Hlen Hsc Hs Hes; simpl.
  - repeat split; assumption.
  - inversion Hes as [| ? ? He Hes']; subst.
    destruct (add_keeps_ranked h e Hlen Hsc Hs He) as [Hsc' Hs'].
    rewrite <- (max_add h e). apply IH; try assumption.
    rewrite max_add. now apply length_value_add_le.
Qed.

Lemma highscore_stays_descending_witness :
  StronglySorted Highscores.not_below
    (Api.get_api_highscore (fold_left Highscores.add seven_submissions full_table)) /\
  Forall Highscores.scored
    (Api.get_api_highscore (fold_left Highscores.add seven_submissions full_table)) /\
  List.length
    (Api.get_api_highscore (fold_left Highscores.add seven_submissions full_table)) <= 5.
Proof.
  apply (highscore_stays_descending seven_submissions full_table).
  - simpl. lia.
  - simpl. repeat (constructor; [intros H; discriminate H |]). constructor.
  - simpl. repeat (constructor; [| repeat (constructor; try reflexivity)]). constructor.
  - unfold seven_submissions. simpl.
    repeat (constructor; [intros H; discriminate H |]). constructor.
Defined.

(** X20: an accepted submission stands at its index, the entries ranked
    before it keep their places, and the table holds nothing but the new
    entry and entries it held before. *)
Theorem add_places_entry (h : Highscores.t) (e : Highscores.entry) :
  Highscores.insertion_index (Highscores.value h) (Highscores.score e)
  < Highscores._max h ->
  nth_error (Highscores.value (Highscores.add h e))
            (Highscores.insertion_index (Highscores.value h) (Highscores.score e))
  = Some e /\
  firstn (Highscores.insertion_index (Highscores.value h) (Highscores.score e))
         (Highscores.value (Highscores.add h e))
  = firstn (Highscores.insertion_index (Highscores.value h) (Highscores.score e))
           (Highscores.value h) /\
  (forall x, In x (Highscores.value (Highscores.add h e)) ->
             x = e \/ In x (Highscores.value h)).
Proof.
  intros H. rewrite value_add.
  pose proof (insertion_index_le (Highscores.score e) (Highscores.value h)) as Hle.
  set (idx := Highscores.insertion_index (Highscores.value h) (Highscores.score e)) in *.
  assert (Hb : (idx <? Highscores._max h) = true) by now apply Nat.ltb_lt.
  rewrite Hb.
  assert (Hlen : List.length (firstn idx (Highscores.value h)) = idx)
    by now apply firstn_length_le.
  split; [| split].
  - rewrite nth_error_firstn, Hb.
    rewrite nth_error_app2 by lia. rewrite Hlen, Nat.sub_diag. reflexivity.
  - rewrite firstn_firstn. replace (Nat.min idx (Highscores._max h)) with idx by lia.
    rewrite firstn_app, Hlen, Nat.sub_diag. simpl.
    rewrite app_nil_r, firstn_firstn. f_equal. lia.
  - intros x Hx. apply In_firstn in Hx. apply in_app_or in Hx.
    destruct Hx as [Hx | [Hx | Hx]].
    + right. eapply In_firstn. exact Hx.
    + left. now symmetry.
    + right. rewrite <- (firstn_skipn idx (Highscores.value h)).
      apply in_or_app. now right.
Qed.

Lemma add_places_entry_witness :
  nth_error (Highscores.value (Highscores.add full_table (submission 8))) 2
  = Some (submission 8) /\
  firstn 2 (Highscores.value (Highscores.add full_table (submission 8)))
  = firstn 2 (Highscores.value full_table) /\
  (forall x, In x (Highscores.value (Highscores.add full_table (submission 8))) ->
             x = submission 8 \/ In x (Highscores.value full_table)).
Proof.
  apply (add_places_entry full_table (submission 8)).
  vm_compute. lia.
Defined.

Lemma add_after_NaN (h : Highscores.t) (l : list Highscores.entry)
      (x e : Highscores.entry) :
  Highscores.value h = l ++ [x] -> Highscores.score x = NaN ->
  Highscores._max h <= List.length (Highscores.value h) ->
  Highscores.add h e = h.
Proof.
  intros Hv Hx Hfull. apply add_dropped.
  rewrite Hv, insertion_index_snoc, Hx. simpl lt. cbn iota.
  rewrite Hv, length_app in Hfull. simpl in Hfull. lia.
Qed.

(** X21: when the table is full and its last entry has the score [NaN],
    every submission is dropped, whatever its score, and the table never
    changes again. *)
Theorem NaN_in_last_place_blocks_table
        (h : Highscores.t) (l : list Highscores.entry) (x : Highscores.entry) :
  Highscores.value h = l ++ [x] -> Highscores.score x = NaN ->
  Highscores._max h <= List.length (Highscores.value h) ->
  (forall e, Highscores.add h e = h) /\
  (forall h', Highscores.steps h h' ->
              Highscores.value h' = Highscores.value h /\
              Highscores._max h' = Highscores._max h).
Proof.
  intros Hv Hx Hfull. split.
  - intros e. now apply (add_after_NaN h l x e).
  - intros h' Hsteps. induction Hsteps as [| h1 h2 h3 _ IH Hstep].
    + split; reflexivity.
    + destruct (IH Hv Hfull) as [Hval Hmax].
      destruct Hstep as [h2 e | h2 Hs | h2 i Hi].
      * rewrite (add_after_NaN h2 l x e); [now split | congruence | assumption |].
        rewrite Hval, Hmax. exact Hfull.
      * simpl. now split.
      * simpl. now split.
Qed.

Lemma NaN_in_last_place_blocks_table_witness :
  (forall e,
      Highscores.add
        (Highscores.constructor [submission 1; Highscores.mkEntry NaN "eve"] 2) e
      = Highscores.constructor [submission 1; Highscores.mkEntry NaN "eve"] 2) /\
  (forall h',
      Highscores.steps
        (Highscores.constructor [submission 1; Highscores.mkEntry NaN "eve"] 2) h' ->
      Highscores.value h' = [submission 1; Highscores.mkEntry NaN "eve"] /\
      Highscores._max h' = 2).
Proof.
  apply (NaN_in_last_place_blocks_table
           (Highscores.constructor [submission 1; Highscores.mkEntry NaN "eve"] 2)
           [submission 1] (Highscores.mkEntry NaN "eve")).
  - reflexivity.
  - reflexivity.
  - simpl. lia.
Defined.

(** ** The sync coroutine and the submissions *)

Lemma add_without_signal (h : Highscores.t) (e : Highscores.entry) :
  Highscores.syncSlot (Highscores.add h e) = false -> Highscores.add h e = h.
Proof.
  unfold Highscores.add.
  destruct (Highscores.insertion_index (Highscores.value h) (Highscores.score e)
            <? Highscores._max h); [discriminate | reflexivity].
Qed.

Lemma add_writing (h : Highscores.t) (e : Highscores.entry) :
  Highscores.writing (Highscores.add h e) = Highscores.writing h /\
  Highscores.last_write (Highscores.add h e) = Highscores.last_write h /\
  (Highscores.syncSlot h = true -> Highscores.syncSlot (Highscores.add h e) = true).
Proof.
  unfold Highscores.add.
  destruct (Highscores.insertion_index (Highscores.value h) (Highscores.score e)
            <? Highscores._max h); repeat split; auto.
Qed.

(** X22: submissions start no write themselves and are written together:
    after any number of submissions one turn of the coroutine starts one
    write, with the table as it then is; and if the submissions changed the
    table, the promise is resolved, so that turn is due. *)
Theorem submissions_written_together (es : list Highscores.entry) :
  forall h,
    Highscores.writing (fold_left Highscores.add es h) = Highscores.writing h /\
    Highscores.writing (Highscores.sync (fold_left Highscores.add es h))
    = Highscores.value (fold_left Highscores.add es h) :: Highscores.writing h /\
    (Highscores.value (fold_left Highscores.add es h) <> Highscores.value h ->
     Highscores.syncSlot (fold_left Highscores.add es h) = true).
Proof.
  induction es as [| e es IH]; intros h; simpl.
  - repeat split. intros H. now contradiction H.
  - destruct (IH (Highscores.add h e)) as [Hw [Hs Hsig]].
    destruct (add_writing h e) as [Hw1 _].
    rewrite Hw1 in Hw, Hs. split; [exact Hw |]. split; [exact Hs |].
    intros Hchanged.
    destruct (Highscores.syncSlot (Highscores.add h e)) eqn:E.
    + clear - E. revert E. generalize (Highscores.add h e). clear.
      induction es as [| e' es IH']; intros h0 E; simpl; [exact E |].
      apply IH'. now apply add_writing.
    + apply Hsig. rewrite (add_without_signal h e E) in *. exact Hchanged.
Qed.

Lemma submissions_written_together_witness :
  Highscores.syncSlot
    (fold_left Highscores.add seven_submissions (Highscores.constructor [] 5)) = true.
Proof.
  apply (proj2 (proj2 (submissions_written_together seven_submissions
                         (Highscores.constructor [] 5)))).
  intros H. vm_compute in H. discriminate H.
Defined.

(** X23: along every run of a store, a step that starts a write is a turn
    of the coroutine taken with the promise resolved, and the write is
    given the table as it is at that moment; and whenever the promise is
    pending, the latest write was given the current table: no change of
    the table is left without a write or a signal for one. *)
Theorem no_change_left_unwritten
        (loaded : list Highscores.entry) (cap : nat) (h : Highscores.t) :
  Highscores.steps (Highscores.constructor loaded cap) h ->
  (Highscores.syncSlot h = false -> Highscores.last_write h = Highscores.value h) /\
  (forall h',
      Highscores.step h h' ->
      List.length (Highscores.writing h) < List.length (Highscores.writing h') ->
      Highscores.syncSlot h = true /\
      Highscores.writing h' = Highscores.value h :: Highscores.writing h /\
      Highscores.syncSlot h' = false).
Proof.
  intros Hsteps. split.
  - now apply (pending_promise_table_written loaded cap).
  - intros h' Hstep Hlen.
    pose proof (write_needs_signal h h' Hstep Hlen) as Hsig.
    split; [exact Hsig |].
    destruct Hstep as [h e | h Hs | h i Hi].
    + exfalso. destruct (add_writing h e) as [Hw _]. rewrite Hw in Hlen. lia.
    + split; reflexivity.
    + exfalso. unfold Highscores.finish in Hlen.
      cbn [Highscores.writing] in Hlen.
      rewrite length_app, length_firstn, length_skipn in Hlen. lia.
Qed.

Lemma no_change_left_unwritten_witness :
  Highscores.last_write
    (Highscores.sync (Highscores.add (Highscores.constructor [] 5) (submission 1)))
  = Highscores.value
      (Highscores.sync (Highscores.add (Highscores.constructor [] 5) (submission 1))).
Proof.
  assert (Hsteps : Highscores.steps
                     (Highscores.constructor [] 5)
                     (Highscores.sync
                        (Highscores.add (Highscores.constructor [] 5) (submission 1)))).
  { eapply Highscores.steps_step; [| apply Highscores.step_sync; reflexivity].
    eapply Highscores.steps_step; [| apply Highscores.step_add].
    apply Highscores.steps_refl. }
  apply (proj1 (no_change_left_unwritten [] 5 _ Hsteps)).
  reflexivity.
Defined.

(** ** The client and the handler together *)

Lemma lowered_guessable (k : ascii) :
  is_alnum k = true ->
  is_lower (toLowerCase_char k) || is_digit (toLowerCase_char k) = true.
Proof.
  destruct k as [[] [] [] [] [] [] [] []]; intros H; try discriminate H; reflexivity.
Qed.

(** X24: through the client a guess does not depend on the case of the
    key.  For a game that is not won and a letter or digit key whose
    lower-case form is needed, the client posts the lower-case character
    and the handler adds it to the guessed characters. *)
Theorem client_guess_ignores_case (g : HangmanGame.t) (k : ascii) :
  HangmanGame.won g = false ->
  is_alnum k = true ->
  In (toLowerCase_char k) (HangmanGame.charsNeeded g) ->
  Client.keypress (String k EmptyString) (HangmanGame.won g)
  = Some (String (toLowerCase_char k) EmptyString) /\
  Server.applyGuess g (String (toLowerCase_char k) EmptyString)
  = Server.Ok (HangmanGame.mk (HangmanGame.word g) (S (HangmanGame.turns g))
                 (HangmanGame.charsNeeded g)
                 (CharSet.add (HangmanGame.charsGuessed g) (toLowerCase_char k))).
Proof.
  intros Hwon Hk Hneeded. split.
  - unfold Client.keypress, Client.has_guessable. rewrite Hwon. simpl.
    rewrite (lowered_guessable k Hk). reflexivity.
  - rewrite applyGuess_char; [| exact Hwon | now rewrite is_alnum_toLowerCase].
    apply has_In in Hneeded. now rewrite Hneeded.
Qed.

Lemma client_guess_ignores_case_witness :
  Client.keypress "F" false = Some "f"%string /\
  Server.applyGuess (Server.newGame "Foo") "f"
  = Server.Ok (HangmanGame.mk "Foo" 1 ["f"; "o"]%char ["f"%char]).
Proof.
  apply (client_guess_ignores_case (Server.newGame "Foo") "F"%char).
  - reflexivity.
  - reflexivity.
  - simpl. tauto.
Defined.

Lemma applyGuess_not_single (g : HangmanGame.t) (guess : string) :
  HangmanGame.won g = false -> String.length guess <> 1 ->
  Server.applyGuess g guess
  = Server.Throw (Server.Http 400 "Your guess must be a single letter or digit!").
Proof.
  intros Hwon Hlen. unfold Server.applyGuess, Server.guess_match. rewrite Hwon.
  destruct guess as [| c [| c' rest]]; try reflexivity.
  simpl in Hlen. lia.
Qed.

(** X25: the client posts nothing once the game is won; what it posts is
    the lower-cased key name, which has no upper-case letter, and when that
    is not a single character (as for the key [Enter]) the handler answers
    400 and no turn is counted. *)
Theorem client_posts_lowercase (key : string) (won : bool) (c : string) :
  Client.keypress key won = Some c ->
  won = false /\
  c = string_of_list_ascii (toLowerCase key) /\
  (forall a, In a (list_ascii_of_string c) -> is_upper a = false) /\
  (String.length c <> 1 ->
   forall g, HangmanGame.won g = false ->
             Server.applyGuess g c
             = Server.Throw
                 (Server.Http 400 "Your guess must be a single letter or digit!")).
Proof.
  unfold Client.keypress. intros H.
  destruct (negb (Client.has_guessable (string_of_list_ascii (toLowerCase key))) || won)
    eqn:E; [discriminate |].
  injection H as <-. apply orb_false_iff in E. destruct E as [_ Hwon].
  split; [exact Hwon |]. split; [reflexivity |]. split.
  - intros a Ha. rewrite list_ascii_of_string_of_list_ascii in Ha.
    unfold toLowerCase in Ha. apply in_map_iff in Ha. destruct Ha as [b [<- _]].
    apply toLowerCase_not_upper.
  - intros Hlen g Hg. now apply applyGuess_not_single.
Qed.

Lemma client_posts_lowercase_witness :
  false = false /\
  "enter"%string = string_of_list_ascii (toLowerCase "Enter") /\
  (forall a, In a (list_ascii_of_string "enter") -> is_upper a = false) /\
  (String.length "enter" <> 1 ->
   forall g, HangmanGame.won g = false ->
             Server.applyGuess g "enter"
             = Server.Throw
                 (Server.Http 400 "Your guess must be a single letter or digit!")).
Proof.
  apply (client_posts_lowercase "Enter" false "enter"). reflexivity.
Defined.
